(** * StudyPal: the document ingestion and retrieval pipeline

    A shallow embedding of [backend/utils.py] (text extraction and the
    whitespace chunker) and of [backend/rag.py] (the [RAGSystem] class:
    [ingest_document] and [query]), followed by the properties the
    specification states about them.

    Conventions.
    - A Python [str] is a list of Unicode code points ([N]); [len] is
      [length].  [pystr] turns a Rocq string literal into such a list.
    - A Python [int] is a [Z].
    - A Python [dict] with string keys is a [gmap string _].
    - A call that may raise returns an [outcome]; [try_except] is the
      [try: ... except Exception: ...] statement.  Only [Exception]
      subclasses are modelled: this is what the collaborators raise. *)

From Stdlib Require Import ZArith Decimal DecimalZ Ascii String.
From stdpp Require Import gmap strings list.

Local Open Scope Z_scope.

(** ** Python strings *)

Abbreviation str := (list N) (only parsing).

Definition pystr (s : string) : str :=
  N_of_ascii <$> list_ascii_of_string s.
Arguments pystr : simpl never.

(** [str.isspace] on one code point: the characters CPython's
    [_PyUnicode_IsWhitespace] accepts, which are the separators of
    [str.split()] called without argument. *)
Definition isspace (c : N) : bool :=
  (((9 <=? c) && (c <=? 13)) || ((28 <=? c) && (c <=? 32))
   || (c =? 133) || (c =? 160) || (c =? 5760)
   || ((8192 <=? c) && (c <=? 8202))
   || (c =? 8232) || (c =? 8233) || (c =? 8239) || (c =? 8287)
   || (c =? 12288))%N.

(** [text.split()]: the maximal runs of non-whitespace characters, in
    order.  [word] is the run being scanned. *)
Fixpoint split_from (word : str) (text : str) : list str :=
  match text with
  | [] => match word with [] => [] | _ => [word] end
  | c :: text' =>
      if isspace c then
        match word with
        | [] => split_from [] text'
        | _ => word :: split_from [] text'
        end
      else split_from (word ++ [c]) text'
  end.

Definition split (text : str) : list str := split_from [] text.

(** [sep.join(l)] *)
Fixpoint join (sep : str) (l : list str) : str :=
  match l with
  | [] => []
  | w :: l' => match l' with [] => w | _ => w ++ sep ++ join sep l' end
  end.

(** [l[-k:]] for an integer [k]: the last [k] elements when [k] is
    positive (all of [l] when it has fewer), all of [l] when [k = 0]
    (as [-0 = 0]), and [l] without its first [-k] elements when [k] is
    negative. *)
Definition slice_last {A} (k : Z) (l : list A) : list A :=
  if 0 <? k then drop (length l - Z.to_nat k)%nat l
  else drop (Z.to_nat (- k)) l.

(** [s.endswith(suffix)] *)
Definition endswith (s suffix : str) : bool :=
  bool_decide (suffix `suffix_of` s).

(** [str(n)] for an integer, which is also how an f-string renders it:
    decimal digits, most significant first, with a leading minus sign
    for a negative number. *)
Fixpoint digits (d : uint) : str :=
  (match d with
   | Nil => []
   | D0 d => 48 :: digits d
   | D1 d => 49 :: digits d
   | D2 d => 50 :: digits d
   | D3 d => 51 :: digits d
   | D4 d => 52 :: digits d
   | D5 d => 53 :: digits d
   | D6 d => 54 :: digits d
   | D7 d => 55 :: digits d
   | D8 d => 56 :: digits d
   | D9 d => 57 :: digits d
   end)%N.

Definition str_of_int (z : Z) : str :=
  match Z.to_int z with
  | Pos d => digits d
  | Neg d => 45%N :: digits d
  end.

(** ** backend/utils.py: the chunker *)

Module Utils.

(** [sum(len(w) + 1 for w in current_chunk)] *)
Definition sum_lengths (ws : list str) : Z :=
  foldr (λ w n, Z.of_nat (length w) + 1 + n) 0 ws.

(** The variables the loop of [split_text] updates. *)
Record loop_state := LoopState {
  chunks : list str;
  current_chunk : list str;
  current_length : Z
}.

(** One iteration of [for word in words]. *)
Definition split_step (chunk_size chunk_overlap : Z)
    (st : loop_state) (word : str) : loop_state :=
  if current_length st + Z.of_nat (length word) + 1 <=? chunk_size then
    {| chunks := chunks st;
       current_chunk := current_chunk st ++ [word];
       current_length := current_length st + (Z.of_nat (length word) + 1) |}
  else
    let current_chunk' :=
      slice_last chunk_overlap (current_chunk st) ++ [word] in
    {| chunks := chunks st ++ [join (pystr " ") (current_chunk st)];
       current_chunk := current_chunk';
       current_length := sum_lengths current_chunk' |}.

Definition split_loop (chunk_size chunk_overlap : Z)
    (words : list str) (st : loop_state) : loop_state :=
  fold_left (split_step chunk_size chunk_overlap) words st.

Definition split_text (text : str) (chunk_size chunk_overlap : Z) : list str :=
  let words := split text in
  let st := split_loop chunk_size chunk_overlap words (LoopState [] [] 0) in
  match current_chunk st with
  | [] => chunks st
  | _ => chunks st ++ [join (pystr " ") (current_chunk st)]
  end.

(** The default arguments of [split_text]. *)
Definition default_chunk_size : Z := 1000.
Definition default_chunk_overlap : Z := 200.

End Utils.

Import Utils.

(** ** Values, dictionaries and exceptions *)

(** The values the metadata dictionaries hold. *)
Inductive value :=
  | VInt (z : Z)
  | VStr (s : str).

#[global] Instance value_eq_dec : EqDecision value.
Proof. solve_decision. Defined.

(** How an f-string renders a value: [str(n)] for an integer, the string
    itself for a string. *)
Definition format (v : value) : str :=
  match v with
  | VInt z => str_of_int z
  | VStr s => s
  end.

(** The failures of the specification's taxonomy, and [KeyError]. *)
Inductive exception :=
  | KeyError (key : string)
  | ExtractionFailure
  | StorageFailure
  | GenerationFailure.

Inductive outcome (A : Type) :=
  | Ok (a : A)
  | Raise (e : exception).
Arguments Ok {A} a.
Arguments Raise {A} e.

(** A computation over a state [S] that may raise.  The state reached
    when an exception is raised is kept: nothing is rolled back. *)
Definition M (S A : Type) : Type := S → outcome A * S.

#[global] Instance M_ret {S} : MRet (M S) := λ A a s, (Ok a, s).
#[global] Instance M_bind {S} : MBind (M S) := λ A B f m s,
  match m s with
  | (Ok a, s') => f a s'
  | (Raise e, s') => (Raise e, s')
  end.

(** A call that does not touch the state. *)
Definition lift {S A} (o : outcome A) : M S A := λ s, (o, s).

(** A call that only reads the state. *)
Definition reads {S A} (f : S → outcome A) : M S A := λ s, (f s, s).

(** [try: body except Exception as e: handler] *)
Definition try_except {S A} (body : M S A) (handler : exception → M S A)
    : M S A := λ s,
  match body s with
  | (Ok a, s') => (Ok a, s')
  | (Raise e, s') => handler e s'
  end.

(** [d[key]] *)
Definition getitem (d : gmap string value) (key : string) : outcome value :=
  match d !! key with
  | Some v => Ok v
  | None => Raise (KeyError key)
  end.

(** [os.path.basename] (POSIX): what follows the last slash. *)
Definition basename (p : str) : str :=
  fold_left (λ acc c, if (c =? 47)%N then [] else acc ++ [c]) p [].

(** ** The collaborators *)

(** The readers [extract_text_from_file] calls: the text of each page of a
    PDF file, of each paragraph of a DOCX file, the content of a text
    file, and the rendering of each element [unstructured] finds.  Each
    raises on an unreadable file. *)
Record FileReaders := {
  PdfReader : str → outcome (list str);
  DocxDocument : str → outcome (list str);
  read_text : str → outcome str;
  partition : str → outcome (list str)
}.

(** A stored chunk, as retrieval returns it. *)
Record Document := {
  page_content : str;
  metadata : gmap string value
}.

(** The vector store (Chroma behind LangChain), an external service.  Its
    contract is the one the specification gives of the chunk store: an
    index from chunk identifier to chunk, a batch write, and a
    nearest-neighbour retrieval restricted by exact-match metadata
    predicates.  Either call may raise, and a write that raises may have
    written part of the batch. *)
Class VectorStore (store : Type) := {
  collection : store → gmap (list N) Document;
  add_texts : list str → list (gmap string value) → list str → M store ();
  similarity_search :
    store → str → gmap string value → nat → outcome (list Document);
  similarity_search_filtered s question filter k docs :
    similarity_search s question filter k = Ok docs →
    ∀ d, d ∈ docs →
      (∃ id, collection s !! id = Some d) ∧ filter ⊆ metadata d;
  add_texts_empty s u s' :
    add_texts [] [] [] s = (Ok u, s') → collection s' = collection s
}.

(** ** backend/utils.py: text extraction *)

Module TextExtractor.

Definition newline : str := [10%N].

Definition extract_text_from_file (fs : FileReaders) (file_path : str)
    : outcome str :=
  if endswith file_path (pystr ".pdf") then
    match PdfReader fs file_path with
    | Ok pages => Ok (join newline pages)
    | Raise e => Raise e
    end
  else if endswith file_path (pystr ".docx") then
    match DocxDocument fs file_path with
    | Ok paragraphs => Ok (join newline paragraphs)
    | Raise e => Raise e
    end
  else if endswith file_path (pystr ".txt") then
    read_text fs file_path
  else
    match partition fs file_path with
    | Ok elements => Ok (join newline elements)
    | Raise e => Raise e
    end.

End TextExtractor.

Import TextExtractor.

(** ** backend/rag.py: the RAGSystem class *)

Module RAGSystem.

(** What [query] returns: the dictionary with keys [answer] and
    [sources]. *)
Record response := {
  answer : str;
  sources : list value
}.

Definition prompt_template (context question : str) : str :=
  pystr "Use the following pieces of context to answer the question at the end. "
  ++ newline
  ++ pystr "        If you don't know the answer, just say that you don't know, don't try to make up an answer."
  ++ newline
  ++ pystr "        Always provide the source document(s) you used to answer the question."
  ++ newline ++ newline
  ++ pystr "        " ++ context ++ newline ++ newline
  ++ pystr "        Question: " ++ question ++ newline
  ++ pystr "        Answer:".

Definition fallback_answer : str :=
  pystr "Sorry, I encountered an error processing your request.".

(** The f-string of [ingest_document]. *)
Definition doc_id (file_path : str) (metadata : gmap string value) (i : nat)
    : outcome str :=
  match getitem metadata "user_id" with
  | Raise e => Raise e
  | Ok user_id =>
  match getitem metadata "semester" with
  | Raise e => Raise e
  | Ok semester =>
  match getitem metadata "subject" with
  | Raise e => Raise e
  | Ok subject =>
      Ok (format user_id ++ pystr "_" ++ format semester ++ pystr "_"
          ++ format subject ++ pystr "_" ++ basename file_path ++ pystr "_"
          ++ str_of_int (Z.of_nat i))
  end end end.

(** The lists the loop of [ingest_document] fills. *)
Record batch := Batch {
  documents : list str;
  metadatas : list (gmap string value);
  ids : list str
}.

(** [for i, chunk in enumerate(chunks)], from index [i] on. *)
Fixpoint ingest_loop (file_path : str) (metadata : gmap string value)
    (i : nat) (chunks : list str) (b : batch) : outcome batch :=
  match chunks with
  | [] => Ok b
  | chunk :: chunks' =>
      match doc_id file_path metadata i with
      | Raise e => Raise e
      | Ok id =>
          ingest_loop file_path metadata (S i) chunks'
            {| documents := documents b ++ [chunk];
               metadatas := metadatas b ++ [metadata];
               ids := ids b ++ [id] |}
      end
  end.

(** The filter [query] builds.  [if semester:] and [if subject:] test
    truthiness: [None], [0] and the empty string are all false. *)
Definition query_filter (user_id : Z) (semester : option Z)
    (subject : option str) : gmap string value :=
  let filter := {[ "user_id" := VInt user_id ]} in
  let filter :=
    match semester with
    | Some s => if s =? 0 then filter else <["semester" := VInt s]> filter
    | None => filter
    end in
  match subject with
  | Some [] | None => filter
  | Some s => <["subject" := VStr s]> filter
  end.

(** [[doc.metadata["title"] for doc in docs]] *)
Fixpoint titles (docs : list Document) : outcome (list value) :=
  match docs with
  | [] => Ok []
  | doc :: docs' =>
      match getitem (metadata doc) "title" with
      | Raise e => Raise e
      | Ok t =>
          match titles docs' with
          | Raise e => Raise e
          | Ok ts => Ok (t :: ts)
          end
      end
  end.

Section Methods.

Context `{VectorStore store}.

(** The remaining collaborators of a [RAGSystem] instance: the file
    readers and the generative model, which maps a prompt to its answer or
    raises. *)
Variable fs : FileReaders.
Variable llm : str → outcome str.

(** The body of the [try] of [ingest_document]. *)
Definition ingest_body (file_path : str) (metadata : gmap string value)
    : M store bool :=
  text ← lift (extract_text_from_file fs file_path);
  let chunks := split_text text default_chunk_size default_chunk_overlap in
  b ← lift (ingest_loop file_path metadata 0 chunks (Batch [] [] []));
  _ ← add_texts (documents b) (metadatas b) (ids b);
  mret true.

Definition ingest_document (file_path : str) (metadata : gmap string value)
    : M store bool :=
  try_except (ingest_body file_path metadata) (λ e, mret false).

(** The [RetrievalQA] chain with the "stuff" strategy: retrieve the [k]
    chunks nearest to the question among those the filter lets through, put
    their texts in the prompt, ask the model, and return its answer with
    the retrieved chunks. *)
Definition qa_chain (filter : gmap string value) (k : nat) (question : str)
    : M store (str * list Document) :=
  docs ← reads (λ s, similarity_search s question filter k);
  let context := join (newline ++ newline) (page_content <$> docs) in
  result ← lift (llm (prompt_template context question));
  mret (result, docs).

(** The body of the [try] of [query].  [list(set(...))] keeps one copy of
    each title, in an order the language leaves unspecified. *)
Definition query_body (question : str) (user_id : Z) (semester : option Z)
    (subject : option str) : M store response :=
  let filter := query_filter user_id semester subject in
  result ← qa_chain filter 4 question;
  ts ← lift (titles result.2);
  mret {| answer := result.1; sources := remove_dups ts |}.

Definition query (question : str) (user_id : Z) (semester : option Z)
    (subject : option str) : M store response :=
  try_except (query_body question user_id semester subject)
    (λ e, mret {| answer := fallback_answer; sources := [] |}).

End Methods.

End RAGSystem.

Import RAGSystem.

(** ** A reference vector store

    An executable store to run the pipeline on: a finite map from
    identifier to chunk, a switch that makes the next batch write raise
    after a given number of entries, and a switch that makes retrieval
    raise.  Retrieval ranks the chunks the filter lets through in the
    order of the map. *)

Module RefStore.

Record ref_store := Build {
  entries : gmap (list N) Document;
  write_fault : option nat;
  online : bool
}.

Definition upsert (m : gmap (list N) Document)
    (rows : list (list N * Document)) : gmap (list N) Document :=
  foldl (λ m row, <[row.1 := row.2]> m) m rows.

Definition rows (texts : list str) (metadatas : list (gmap string value))
    (ids : list str) : list (list N * Document) :=
  zip ids (zip_with Build_Document texts metadatas).

Definition ref_add_texts (texts : list str)
    (metadatas : list (gmap string value)) (ids : list str)
    : M ref_store () := λ s,
  match write_fault s with
  | None =>
      (Ok (), Build (upsert (entries s) (rows texts metadatas ids)) None
                (online s))
  | Some n =>
      (Raise StorageFailure,
       Build (upsert (entries s) (take n (rows texts metadatas ids))) None
         (online s))
  end.

Definition allows (filter : gmap string value) (d : Document) : bool :=
  bool_decide (map_Forall (λ k v, metadata d !! k = Some v) filter).

Definition ref_similarity_search (s : ref_store) (question : str)
    (filter : gmap string value) (k : nat) : outcome (list Document) :=
  if online s then
    Ok (take k (List.filter (allows filter) (map_to_list (entries s)).*2))
  else Raise StorageFailure.

End RefStore.

(** The reference store meets the contract. *)

Module RefStoreFacts.

Import RefStore.

Lemma ref_similarity_search_filtered s question filter k docs :
  ref_similarity_search s question filter k = Ok docs →
  ∀ d, d ∈ docs → (∃ id, entries s !! id = Some d) ∧ filter ⊆ metadata d.
Proof.
  unfold ref_similarity_search. destruct (online s); [|done].
  intros [= <-] d Hd. apply elem_of_take in Hd as (i & Hd & _).
  apply list_elem_of_lookup_2, list_elem_of_In, filter_In in Hd
    as [Hin Hadm].
  apply list_elem_of_In, list_elem_of_fmap in Hin as ([id d'] & -> & Hin).
  apply elem_of_map_to_list in Hin. split; [by exists id|].
  unfold allows in Hadm. apply bool_decide_eq_true in Hadm.
  by apply map_subseteq_spec.
Qed.

Lemma ref_add_texts_empty s u s' :
  ref_add_texts [] [] [] s = (Ok u, s') → entries s' = entries s.
Proof.
  unfold ref_add_texts. destruct (write_fault s); [done|]. by intros [= _ <-].
Qed.

End RefStoreFacts.

#[global] Instance ref_vector_store : VectorStore RefStore.ref_store := {|
  collection := RefStore.entries;
  add_texts := RefStore.ref_add_texts;
  similarity_search := RefStore.ref_similarity_search;
  similarity_search_filtered := RefStoreFacts.ref_similarity_search_filtered;
  add_texts_empty := RefStoreFacts.ref_add_texts_empty
|}.

(** ** Files and a model to run the pipeline on *)

Module Demo.

Import RefStore.

(** Four text files under [uploads/]; nothing else can be read. *)
Definition fs : FileReaders := {|
  PdfReader := λ _, Raise ExtractionFailure;
  DocxDocument := λ _, Raise ExtractionFailure;
  read_text := λ p,
    if decide (p = pystr "uploads/1_notes.txt") then
      Ok (pystr "Rocq checks proofs")
    else if decide (p = pystr "uploads/2_notes.txt") then
      Ok (pystr "Proofs are programs")
    else if decide (p = pystr "uploads/3_long.txt") then
      Ok (mjoin (replicate 201 (pystr "abcd ")))
    else if decide (p = pystr "uploads/1_blank.txt") then
      Ok (pystr "   ")
    else Raise ExtractionFailure;
  partition := λ _, Raise ExtractionFailure
|}.

(** A model that answers every prompt the same way. *)
Definition llm (prompt : str) : outcome str := Ok (pystr "I don't know.").

(** The metadata the upload endpoint builds. *)
Definition upload_metadata (user_id semester : Z) (subject title : string)
    : gmap string value :=
  <["user_id" := VInt user_id]>
    (<["semester" := VInt semester]>
       (<["subject" := VStr (pystr subject)]>
          {[ "title" := VStr (pystr title) ]})).

Definition empty_store : ref_store := Build ∅ None true.

(** The store after user 1 and user 2 each uploaded a [notes.txt]. *)
Definition two_owners : ref_store :=
  (ingest_document fs (pystr "uploads/2_notes.txt")
     (upload_metadata 2 1 "General" "notes.txt")
     (ingest_document fs (pystr "uploads/1_notes.txt")
        (upload_metadata 1 1 "General" "notes.txt") empty_store).2).2.

End Demo.

(** ** Vocabulary of the properties *)

(** A word as [split] returns it: not empty, no whitespace inside. *)
Definition word_ok (w : str) : Prop :=
  w ≠ [] ∧ Forall (λ c, isspace c = false) w.

(** Neighbours in a list are related by [R]. *)
Definition adjacent {A} (R : A → A → Prop) (l : list A) : Prop :=
  ∀ j a b, l !! j = Some a → l !! S j = Some b → R a b.

(** The next chunk starts with the overlap taken from the previous one. *)
Definition overlaps (chunk_overlap : Z) (a b : list str) : Prop :=
  slice_last chunk_overlap a `prefix_of` b.

(** The words fit the budget: there is none, or their lengths and one
    separator each stay within it. *)
Definition fits (chunk_size : Z) (ws : list str) : Prop :=
  ws = [] ∨ sum_lengths ws ≤ chunk_size.

(** [b] is what closing [a] leaves in the current chunk: the overlap of
    [a] and the word that did not fit. *)
Definition seed_of (chunk_overlap : Z) (a b : list str) : Prop :=
  ∃ w, b = slice_last chunk_overlap a ++ [w].

(** How a chunk follows the one before it. *)
Definition follows (chunk_size chunk_overlap : Z) (a b : list str) : Prop :=
  overlaps chunk_overlap a b
  ∧ (fits chunk_size b ∨ seed_of chunk_overlap a b).

(** What the loop maintains: the closed chunks are the joined word lists
    [closed]; [current_length] is the length of the current chunk; the
    first chunk fits the budget; each chunk, closed or current, follows
    the one before it. *)
Record loop_inv (chunk_size chunk_overlap : Z) (st : loop_state)
    (closed : list (list str)) : Prop := {
  inv_chunks : chunks st = join (pystr " ") <$> closed;
  inv_words : Forall (Forall word_ok) closed;
  inv_current : Forall word_ok (current_chunk st);
  inv_length : current_length st = sum_lengths (current_chunk st);
  inv_first :
    ∀ ws, head (closed ++ [current_chunk st]) = Some ws → fits chunk_size ws;
  inv_adjacent : adjacent (follows chunk_size chunk_overlap) closed;
  inv_last :
    ∀ a, last closed = Some a →
         follows chunk_size chunk_overlap a (current_chunk st)
}.

(** The identifier of the chunk of index [i], written with [join]. *)
Definition chunk_id (user_id semester subject : value) (base : str)
    (i : nat) : str :=
  join (pystr "_")
    [format user_id; format semester; format subject; base;
     str_of_int (Z.of_nat i)].

(** ** backend/rag.py: get_user_documents *)

(** [collection.get(where=..., include=["metadatas"])] of the Chroma
    client, an external service like [VectorStore]: the metadata of the
    stored chunks that match the filter exactly, all of them, or an
    exception. *)
Class CollectionReader (store : Type) `{VectorStore store} := {
  collection_get :
    store → gmap string value → outcome (list (gmap string value));
  collection_get_sound s filter ms :
    collection_get s filter = Ok ms →
    ∀ m, m ∈ ms →
      filter ⊆ m ∧ ∃ id d, collection s !! id = Some d ∧ metadata d = m;
  collection_get_complete s filter ms :
    collection_get s filter = Ok ms →
    ∀ id d, collection s !! id = Some d → filter ⊆ metadata d →
      metadata d ∈ ms
}.

Module UserDocuments.

(** One round of [for metadata in results["metadatas"]].  The dictionary
    [unique_docs] is the list of its items in insertion order.  The
    dictionary display on the right of the assignment is evaluated before
    the key on its left. *)
Definition unique_docs_step (unique_docs : list (value * gmap string value))
    (metadata : gmap string value)
    : outcome (list (value * gmap string value)) :=
  match getitem metadata "title" with
  | Raise e => Raise e
  | Ok title =>
      if bool_decide (title ∈ unique_docs.*1) then Ok unique_docs
      else
        match getitem metadata "semester" with
        | Raise e => Raise e
        | Ok semester =>
        match getitem metadata "subject" with
        | Raise e => Raise e
        | Ok subject =>
        match getitem metadata "user_id" with
        | Raise e => Raise e
        | Ok user_id =>
            Ok (unique_docs
                ++ [(title,
                     {[ "semester" := semester; "subject" := subject;
                        "user_id" := user_id ]})])
        end end end
  end.

Fixpoint unique_docs_loop (metadatas : list (gmap string value))
    (unique_docs : list (value * gmap string value))
    : outcome (list (value * gmap string value)) :=
  match metadatas with
  | [] => Ok unique_docs
  | metadata :: metadatas' =>
      match unique_docs_step unique_docs metadata with
      | Raise e => Raise e
      | Ok unique_docs' => unique_docs_loop metadatas' unique_docs'
      end
  end.

(** [[{"title": title, **info} for title, info in unique_docs.items()]]:
    the entries of [info] come last and would win over ["title"]. *)
Definition documents_of (unique_docs : list (value * gmap string value))
    : list (gmap string value) :=
  (λ item, item.2 ∪ {[ "title" := item.1 ]}) <$> unique_docs.

Section Methods.

Context `{CollectionReader store}.

Definition get_user_documents_body (user_id : Z)
    : M store (list (gmap string value)) :=
  metadatas ← reads (λ s, collection_get s {[ "user_id" := VInt user_id ]});
  unique_docs ← lift (unique_docs_loop metadatas []);
  mret (documents_of unique_docs).

Definition get_user_documents (user_id : Z)
    : M store (list (gmap string value)) :=
  try_except (get_user_documents_body user_id) (λ e, mret []).

End Methods.

End UserDocuments.

Import UserDocuments.

(** ** backend/main.py: what the endpoints pass to the RAGSystem *)

Module Main.

(** [f"uploads/{current_user.id}_{file.filename}"] *)
Definition file_location (current_user_id : Z) (filename : str) : str :=
  pystr "uploads/" ++ str_of_int current_user_id ++ pystr "_" ++ filename.

(** The dictionary [metadata] of [upload_document]. *)
Definition upload_metadata (current_user_id semester : Z)
    (subject filename : str) : gmap string value :=
  {[ "user_id" := VInt current_user_id; "semester" := VInt semester;
     "subject" := VStr subject; "title" := VStr filename ]}.

(** The body of a chat request, as [schemas.ChatRequest] declares it. *)
Record ChatRequest := {
  chat_question : str;
  chat_user_id : Z;
  chat_semester : option Z;
  chat_subject : option str
}.

(** [schemas.ChatResponse]: an answer and a list of strings. *)
Record ChatResponse := {
  response_answer : str;
  response_sources : list str
}.

(** What an endpoint does: it returns, or the construction of its
    response fails validation, or an exception of a call it makes goes
    through. *)
Inductive endpoint_result (A : Type) :=
  | Returned (a : A)
  | ValidationError
  | Raised (e : exception).
Arguments Returned {A} a.
Arguments ValidationError {A}.
Arguments Raised {A} e.

(** The validation of [sources: List[str]]: every source has to be a
    string. *)
Fixpoint validate_sources (sources : list value) : option (list str) :=
  match sources with
  | [] => Some []
  | VStr s :: sources' => cons s <$> validate_sources sources'
  | VInt _ :: _ => None
  end.

Section Endpoints.

Context `{VectorStore store}.
Variable fs : FileReaders.
Variable llm : str → outcome str.

(** The call to [ingest_document] of [upload_document], for a file the
    endpoint has saved under [file_location]: [fs] reads the disk as the
    endpoint left it. *)
Definition upload_ingest (current_user_id : Z) (filename : str)
    (semester : Z) (subject : str) : M store bool :=
  ingest_document fs (file_location current_user_id filename)
    (upload_metadata current_user_id semester subject filename).

(** [chat_with_documents]: the query is made for the authenticated user,
    and its result has to fit [ChatResponse]. *)
Definition chat_with_documents (chat_request : ChatRequest)
    (current_user_id : Z) (vs : store)
    : endpoint_result ChatResponse * store :=
  match query llm (chat_question chat_request) current_user_id
          (chat_semester chat_request) (chat_subject chat_request) vs with
  | (Ok response, vs') =>
      match validate_sources (sources response) with
      | Some sources =>
          (Returned (Build_ChatResponse (answer response) sources), vs')
      | None => (ValidationError, vs')
      end
  | (Raise e, vs') => (Raised e, vs')
  end.

End Endpoints.

End Main.

(** The reference store reads its collection in the order of the map. *)
Definition ref_collection_get (s : RefStore.ref_store)
    (filter : gmap string value) : outcome (list (gmap string value)) :=
  if RefStore.online s then
    Ok (metadata
          <$> List.filter (RefStore.allows filter)
                (map_to_list (RefStore.entries s)).*2)
  else Raise StorageFailure.

(** The identifiers of the [n] chunks of an upload, written with
    [join]: the user id comes twice, as owner and in the name the file was
    saved under. *)
Definition upload_ids (current_user_id semester : Z) (subject filename : str)
    (n : nat) : list str :=
  (λ i : nat,
     join (pystr "_")
       [str_of_int current_user_id; str_of_int semester; subject;
        str_of_int current_user_id; filename; str_of_int (Z.of_nat i)])
  <$> seq 0 n.

(** Files to run the extraction on: a PDF file of two pages. *)
Module DemoFiles.

Definition fs : FileReaders := {|
  PdfReader := λ p,
    if decide (p = pystr "uploads/1_slides.pdf") then
      Ok [pystr "Induction on lists"; pystr "and on  trees"]
    else Raise ExtractionFailure;
  DocxDocument := λ _, Raise ExtractionFailure;
  read_text := λ _, Raise ExtractionFailure;
  partition := λ _, Raise ExtractionFailure
|}.

End DemoFiles.

(** A dictionary the listing can read: it has the four keys. *)
Definition listable (m : gmap string value) : Prop :=
  is_Some (m !! "title") ∧ is_Some (m !! "semester")
  ∧ is_Some (m !! "subject") ∧ is_Some (m !! "user_id").

(** [item] is the entry [unique_docs] gets for the metadata [m]. *)
Definition item_of (m : gmap string value)
    (item : value * gmap string value) : Prop :=
  ∃ title semester subject user_id,
    m !! "title" = Some title ∧ m !! "semester" = Some semester
    ∧ m !! "subject" = Some subject ∧ m !! "user_id" = Some user_id
    ∧ item = (title,
              {[ "semester" := semester; "subject" := subject;
                 "user_id" := user_id ]}).

(** A store with a chunk that has no title. *)
Definition untitled_store : RefStore.ref_store :=
  RefStore.Build
    {[ pystr "1_1_General_1_draft.txt_0" :=
         {| page_content := pystr "a draft";
            metadata := {[ "user_id" := VInt 1 ]} |} ]}
    None true.

(** ** backend/main.py: registration *)

Module Users.

(** What the body of an endpoint can raise: an [HTTPException] of its
    own, or the exception of a call it makes. *)
Inductive raised :=
  | HTTPException (status_code : Z) (detail : str)
  | Other (e : exception).

(** [schemas.UserCreate] *)
Record UserCreate := {
  username : str;
  email : str;
  password : str
}.

(** A row of the table [users]. *)
Record UserRow := {
  row_id : Z;
  row_username : str;
  row_email : str;
  row_hashed_password : str
}.

Section Endpoint.

(** The collaborators: the query for the first user of a name, the
    password hash, the insertion of a row ([db.add], [db.commit],
    [db.refresh]), and [str(e)]. *)
Variable db : Type.
Variable first_by_username : db → str → outcome (option UserRow).
Variable get_password_hash : str → outcome str.
Variable add_commit_refresh : str → str → str → M db UserRow.
Variable str_of_exception : raised → str.

(** The body of the [try] of [create_user]. *)
Definition create_user_body (user : UserCreate) (s : db)
    : (UserRow + raised) * db :=
  match first_by_username s (username user) with
  | Raise e => (inr (Other e), s)
  | Ok (Some db_user) =>
      (inr (HTTPException 400 (pystr "Username already registered")), s)
  | Ok None =>
      match get_password_hash (password user) with
      | Raise e => (inr (Other e), s)
      | Ok hashed_password =>
          match add_commit_refresh (username user) (email user)
                  hashed_password s with
          | (Ok db_user, s') => (inl db_user, s')
          | (Raise e, s') => (inr (Other e), s')
          end
      end
  end.

(** [except Exception as e: raise HTTPException(status_code=500,
    detail=str(e))]: an [HTTPException] is an [Exception]. *)
Definition create_user (user : UserCreate) (s : db)
    : (UserRow + raised) * db :=
  match create_user_body user s with
  | (inl db_user, s') => (inl db_user, s')
  | (inr e, s') => (inr (HTTPException 500 (str_of_exception e)), s')
  end.

End Endpoint.

(** A table to run the endpoint on: a list of rows, a hash that marks the
    password, and ids counted from 1. *)
Definition demo_first (rows : list UserRow) (name : str)
    : outcome (option UserRow) :=
  Ok (head (List.filter (λ r, bool_decide (row_username r = name)) rows)).

Definition demo_hash (password : str) : outcome str :=
  Ok (pystr "hash:" ++ password).

Definition demo_add (name mail hashed : str) : M (list UserRow) UserRow :=
  λ rows,
    let row := {| row_id := Z.of_nat (S (length rows)); row_username := name;
                  row_email := mail; row_hashed_password := hashed |} in
    (Ok row, rows ++ [row]).

Definition demo_str (e : raised) : str :=
  match e with
  | HTTPException status_code detail =>
      str_of_int status_code ++ pystr ": " ++ detail
  | Other _ => pystr "error"
  end.

End Users.

(** ** Vocabulary of the further properties of the chunker *)

(** The words each chunk adds to the ones before it: all of the first
    chunk and, of each other chunk, what follows the overlap it took from
    the chunk [prev] before it. *)
Fixpoint strip_overlaps (chunk_overlap : Z) (prev : list str)
    (wss : list (list str)) : list str :=
  match wss with
  | [] => []
  | ws :: wss' =>
      drop (length (slice_last chunk_overlap prev)) ws
      ++ strip_overlaps chunk_overlap ws wss'
  end.

(** The first word does not fit an empty chunk. *)
Definition first_too_long (chunk_size : Z) (words : list str) : Prop :=
  match words with
  | w :: _ => chunk_size ≤ Z.of_nat (length w)
  | [] => False
  end.

(** [b] is the chunk opened when [a] was closed: the overlap of [a], the
    word [w] that did not fit [a], and the words appended since, which all
    fitted the budget. *)
Definition closes (chunk_size chunk_overlap : Z) (a b : list str) : Prop :=
  ∃ w rest,
    b = slice_last chunk_overlap a ++ w :: rest
    ∧ chunk_size < sum_lengths a + Z.of_nat (length w) + 1
    ∧ (rest = [] ∨ sum_lengths b ≤ chunk_size).

(** What the loop maintains about the words [consumed] so far. *)
Record cover_inv (chunk_size chunk_overlap : Z) (consumed : list str)
    (st : loop_state) (closed : list (list str)) : Prop := {
  cov_chunks : chunks st = join (pystr " ") <$> closed;
  cov_words : Forall (Forall word_ok) closed;
  cov_current : Forall word_ok (current_chunk st);
  cov_length : current_length st = sum_lengths (current_chunk st);
  cov_adjacent : adjacent (closes chunk_size chunk_overlap) closed;
  cov_last :
    ∀ a, last closed = Some a →
         closes chunk_size chunk_overlap a (current_chunk st);
  cov_strip :
    strip_overlaps chunk_overlap [] (closed ++ [current_chunk st]) = consumed;
  cov_sub : ∀ ws, ws ∈ closed ++ [current_chunk st] → ws ⊆ consumed;
  cov_nonempty : consumed ≠ [] → current_chunk st ≠ [];
  cov_first :
    match closed with
    | [] => fits chunk_size (current_chunk st)
    | a :: _ => a = [] ↔ first_too_long chunk_size consumed
    end;
  cov_count : (length closed ≤ length consumed)%nat
}.

(** * Properties of the chunker *)

Section SplitFacts.

Lemma split_from_words word text :
  Forall (λ c, isspace c = false) word →
  Forall word_ok (split_from word text).
Proof.
  revert word. induction text as [|c text IH]; intros word Hword; simpl.
  - destruct word; [constructor|].
    constructor; [|constructor]. by split.
  - destruct (isspace c) eqn:Hc.
    + destruct word as [|d word]; [by apply IH|].
      constructor; [by split|]. by apply IH.
    + apply IH. apply Forall_app. split; [done|]. by constructor.
Qed.

Lemma split_words text : Forall word_ok (split text).
Proof. apply split_from_words. constructor. Qed.

Lemma split_from_sum_lengths word text :
  sum_lengths (split_from word text)
  ≤ Z.of_nat (length word) + Z.of_nat (length text) + 1.
Proof.
  revert word. induction text as [|c text IH]; intros word; simpl.
  - destruct word; simpl; lia.
  - destruct (isspace c).
    + destruct word as [|d word]; simpl.
      * specialize (IH []). simpl in IH. lia.
      * specialize (IH []). simpl in IH. lia.
    + specialize (IH (word ++ [c])). rewrite length_app in IH. simpl in IH. lia.
Qed.

Lemma split_sum_lengths text :
  sum_lengths (split text) ≤ Z.of_nat (length text) + 1.
Proof. pose proof (split_from_sum_lengths [] text). simpl in *. done. Qed.

Lemma split_from_app_word word w text :
  Forall (λ c, isspace c = false) w →
  split_from word (w ++ text) = split_from (word ++ w) text.
Proof.
  revert word. induction w as [|c w IH]; intros word Hw; simpl.
  - by rewrite app_nil_r.
  - inversion Hw as [|? ? Hc Hw']; subst. rewrite Hc.
    rewrite IH by done. by rewrite <- app_assoc.
Qed.

Lemma join_cons_cons sep w w' (l : list str) :
  join sep (w :: w' :: l) = w ++ sep ++ join sep (w' :: l).
Proof. done. Qed.

Lemma split_from_space word text :
  word ≠ [] →
  split_from word (pystr " " ++ text) = word :: split_from [] text.
Proof. intros Hne. by destruct word. Qed.

Lemma split_join ws :
  Forall word_ok ws → split (join (pystr " ") ws) = ws.
Proof.
  induction 1 as [|w ws [Hne Hw] Hws IH]; [done|].
  unfold split. destruct ws as [|w' ws].
  - pose proof (split_from_app_word [] w [] Hw) as E.
    rewrite app_nil_r in E. simpl. rewrite E. simpl. by destruct w.
  - rewrite join_cons_cons, split_from_app_word, split_from_space by done.
    f_equal. exact IH.
Qed.

Lemma join_prefix sep (l l' : list str) :
  join sep l `prefix_of` join sep (l ++ l').
Proof.
  induction l as [|w l IH]; [apply prefix_nil|].
  destruct l as [|w2 l]; simpl.
  - destruct l'; [done|]. by apply prefix_app_r.
  - simpl in IH. apply prefix_app, prefix_app. exact IH.
Qed.

Lemma slice_last_nil {A} k : slice_last k (@nil A) = [].
Proof. unfold slice_last. destruct (0 <? k); by rewrite drop_nil. Qed.

Lemma slice_last_suffix {A} k (l : list A) : slice_last k l `suffix_of` l.
Proof. unfold slice_last. destruct (0 <? k); apply suffix_drop. Qed.

End SplitFacts.

Section SplitLoop.

Variables chunk_size chunk_overlap : Z.

Lemma sum_lengths_nonneg ws : 0 ≤ sum_lengths ws.
Proof. induction ws; simpl; lia. Qed.

Lemma split_loop_cons w ws st :
  split_loop chunk_size chunk_overlap (w :: ws) st
  = split_loop chunk_size chunk_overlap ws
      (split_step chunk_size chunk_overlap st w).
Proof. done. Qed.

(** The loop only ever appends to [chunks]. *)
Lemma split_loop_chunks_prefix ws st :
  chunks st `prefix_of` chunks (split_loop chunk_size chunk_overlap ws st).
Proof.
  revert st. induction ws as [|w ws IH]; intros st; [done|].
  rewrite split_loop_cons. etrans; [|apply IH].
  unfold split_step. destruct (_ <=? _); simpl; [done|].
  by apply prefix_app_r.
Qed.

(** Words that fit the budget together are all appended to the current
    chunk, and no chunk is closed. *)
Lemma split_loop_fits ws st :
  current_length st + sum_lengths ws ≤ chunk_size →
  split_loop chunk_size chunk_overlap ws st
  = {| chunks := chunks st;
       current_chunk := current_chunk st ++ ws;
       current_length := current_length st + sum_lengths ws |}.
Proof.
  revert st. induction ws as [|w ws IH]; intros st Hfit.
  - destruct st. simpl. by rewrite app_nil_r, Z.add_0_r.
  - rewrite split_loop_cons. simpl in Hfit.
    pose proof (sum_lengths_nonneg ws).
    unfold split_step at 1.
    destruct (Z.leb_spec (current_length st + Z.of_nat (length w) + 1)
                chunk_size); [|lia].
    rewrite IH by (simpl; lia). simpl.
    rewrite <- app_assoc. f_equal. lia.
Qed.

Lemma adjacent_snoc {A} (R : A → A → Prop) (l : list A) b :
  adjacent R l → (∀ a, last l = Some a → R a b) → adjacent R (l ++ [b]).
Proof.
  intros Hl Hlast j x y Hx Hy.
  destruct (decide (S j < length l)%nat).
  - rewrite lookup_app_l in Hx, Hy by lia. eauto.
  - pose proof (lookup_lt_Some _ _ _ Hy) as Hlt.
    rewrite length_app in Hlt. simpl in Hlt.
    rewrite lookup_app_l in Hx by lia.
    rewrite lookup_app_r in Hy by lia.
    replace (S j - length l)%nat with 0%nat in Hy by lia.
    simpl in Hy. injection Hy as <-. apply Hlast.
    rewrite last_lookup. by replace (pred (length l)) with j by lia.
Qed.

Lemma sum_lengths_snoc ws w :
  sum_lengths (ws ++ [w]) = sum_lengths ws + Z.of_nat (length w) + 1.
Proof. induction ws as [|w' ws IH]; simpl; lia. Qed.

Lemma loop_inv_init :
  loop_inv chunk_size chunk_overlap (LoopState [] [] 0) [].
Proof. split; try done. intros ws [= <-]. by left. Qed.

Lemma split_step_inv st closed w :
  word_ok w → loop_inv chunk_size chunk_overlap st closed →
  ∃ closed',
    loop_inv chunk_size chunk_overlap
      (split_step chunk_size chunk_overlap st w) closed'.
Proof.
  intros Hw [Hc Hws Hcur Hlen Hfirst Hadj Hlast]. unfold split_step.
  destruct (Z.leb_spec (current_length st + Z.of_nat (length w) + 1)
              chunk_size) as [Hfit|Hover].
  - assert (fits chunk_size (current_chunk st ++ [w])) as Hfits
      by (right; rewrite sum_lengths_snoc; lia).
    exists closed. split; simpl; try done.
    + apply Forall_app. split; [done|]. by constructor.
    + rewrite sum_lengths_snoc. lia.
    + intros ws Hhd. destruct closed as [|a closed]; simpl in *.
      * by injection Hhd as <-.
      * by apply Hfirst.
    + intros a Ha. split; [|by left].
      by apply prefix_app_r, Hlast.
  - exists (closed ++ [current_chunk st]). split; simpl.
    + by rewrite fmap_app, Hc.
    + apply Forall_app. split; [done|]. by constructor.
    + apply Forall_app. split; [|by constructor].
      destruct (slice_last_suffix chunk_overlap (current_chunk st)) as [k Hk].
      rewrite Hk in Hcur. by apply Forall_app in Hcur as [_ ?].
    + done.
    + intros ws Hhd. apply Hfirst.
      destruct closed as [|a closed]; simpl in *; done.
    + by apply adjacent_snoc.
    + intros a Ha. rewrite last_snoc in Ha. injection Ha as <-. split.
      * by apply prefix_app_r.
      * right. by eexists.
Qed.

Lemma split_loop_inv ws st closed :
  Forall word_ok ws → loop_inv chunk_size chunk_overlap st closed →
  ∃ closed',
    loop_inv chunk_size chunk_overlap
      (split_loop chunk_size chunk_overlap ws st) closed'.
Proof.
  intros Hws. revert st closed.
  induction Hws as [|w ws Hw Hws IH]; intros st closed Hinv; [by eexists|].
  rewrite split_loop_cons.
  destruct (split_step_inv st closed w Hw Hinv) as [closed' Hinv'].
  by eapply IH.
Qed.

(** The chunks of [split_text] are joined lists of words; the first fits
    the budget and each other one follows the one before it. *)
Lemma split_text_words text :
  ∃ wss, split_text text chunk_size chunk_overlap = join (pystr " ") <$> wss
         ∧ Forall (Forall word_ok) wss
         ∧ (∀ ws, head wss = Some ws → fits chunk_size ws)
         ∧ adjacent (follows chunk_size chunk_overlap) wss.
Proof.
  destruct (split_loop_inv (split text) _ _ (split_words text) loop_inv_init)
    as [closed [Hc Hws Hcur Hlen Hfirst Hadj Hlast]].
  unfold split_text.
  destruct (current_chunk _) as [|w cur] eqn:E.
  - exists closed. split; [done|]. split; [done|]. split; [|done].
    intros ws Hhd. apply Hfirst. by destruct closed.
  - exists (closed ++ [w :: cur]). rewrite fmap_app, Hc.
    split; [done|]. split; [|split].
    + apply Forall_app. split; [done|]. by constructor.
    + done.
    + by apply adjacent_snoc.
Qed.

Lemma length_join_le ws :
  Z.of_nat (length (join (pystr " ") ws)) ≤ sum_lengths ws.
Proof.
  induction ws as [|w ws IH]; [done|]. destruct ws as [|w' ws].
  - simpl. lia.
  - rewrite join_cons_cons, !length_app. simpl sum_lengths in *.
    change (length (pystr " ")) with 1%nat. lia.
Qed.

Lemma fits_length ws :
  0 ≤ chunk_size → fits chunk_size ws →
  Z.of_nat (length (join (pystr " ") ws)) ≤ chunk_size.
Proof.
  intros Hpos [->|Hsum]; [done|]. pose proof (length_join_le ws). lia.
Qed.

End SplitLoop.

(** ** The chunker claims *)

(** C2. Each chunk after the first begins with the last [chunk_overlap]
    words of its predecessor: as a list of words, and hence as a string.
    When the predecessor has no more than [chunk_overlap] words, the
    overlap is the whole predecessor.  [split_text] is a total function,
    so no error arises in either case. *)
Theorem split_text_overlap text chunk_size chunk_overlap j c c' :
  0 < chunk_overlap →
  split_text text chunk_size chunk_overlap !! j = Some c →
  split_text text chunk_size chunk_overlap !! S j = Some c' →
  let tail_words :=
    drop (length (split c) - Z.to_nat chunk_overlap)%nat (split c) in
  tail_words `prefix_of` split c'
  ∧ join (pystr " ") tail_words `prefix_of` c'
  ∧ (Z.of_nat (length (split c)) ≤ chunk_overlap →
     tail_words = split c ∧ split c `prefix_of` split c').
Proof.
  intros Hpos Hj HSj.
  destruct (split_text_words chunk_size chunk_overlap text)
    as (wss & E & Hws & _ & Hadj).
  rewrite E, list_lookup_fmap in Hj, HSj.
  destruct (wss !! j) as [a|] eqn:Ha; [|done].
  destruct (wss !! S j) as [b|] eqn:Hb; [|done].
  simpl in Hj, HSj. injection Hj as <-. injection HSj as <-.
  rewrite !split_join by (eapply Forall_lookup_1; eauto).
  destruct (Hadj j a b Ha Hb) as [Hov _]. unfold overlaps, slice_last in Hov.
  destruct (Z.ltb_spec 0 chunk_overlap); [|lia].
  simpl. split; [done|]. split.
  - destruct Hov as [k ->]. apply join_prefix.
  - intros Hle.
    replace (length a - Z.to_nat chunk_overlap)%nat with 0%nat in * by lia.
    done.
Qed.

(** A text of 300 five-letter words: two chunks at the default sizes. *)
Lemma split_text_overlap_witness :
  let text := mjoin (replicate 300 (pystr "alpha ")) in
  ∃ c c',
    split_text text default_chunk_size default_chunk_overlap !! 0%nat = Some c
    ∧ split_text text default_chunk_size default_chunk_overlap !! 1%nat
      = Some c'
    ∧ drop (length (split c) - Z.to_nat default_chunk_overlap)%nat (split c)
      `prefix_of` split c'.
Proof.
  intros text.
  destruct (split_text text default_chunk_size default_chunk_overlap !! 0%nat)
    as [c|] eqn:Hc; [|by vm_compute in Hc].
  destruct (split_text text default_chunk_size default_chunk_overlap !! 1%nat)
    as [c'|] eqn:Hc'; [|by vm_compute in Hc'].
  exists c, c'. split; [done|]. split; [done|].
  exact (proj1 (split_text_overlap text default_chunk_size
                  default_chunk_overlap 0 c c' eq_refl Hc Hc')).
Defined.

(** C3 as stated fails: a token is never cut, so a token longer than the
    budget gives a chunk longer than the budget. *)
Lemma split_text_budget_counterexample :
  ∃ c, c ∈ split_text (replicate 1001 97%N) default_chunk_size
             default_chunk_overlap
    ∧ default_chunk_size < Z.of_nat (length c).
Proof.
  exists (replicate 1001 97%N). split.
  - assert (split_text (replicate 1001 97%N) default_chunk_size
              default_chunk_overlap = [ []; replicate 1001 97%N ]) as ->
      by (vm_compute; reflexivity).
    right. by left.
  - vm_compute. reflexivity.
Qed.

(** C3, amended.  For a budget that is not negative, a chunk of
    [split_text] has at most [chunk_size] characters unless it is exactly
    what the closing of its predecessor left: the overlap words of the
    predecessor and the one word that did not fit.  A word is appended
    only when the running length stays within the budget, so the first
    chunk, and every chunk that received a further word, is within it. *)
Theorem split_text_budget text chunk_size chunk_overlap j c :
  0 ≤ chunk_size →
  split_text text chunk_size chunk_overlap !! j = Some c →
  (j = 0%nat → Z.of_nat (length c) ≤ chunk_size)
  ∧ (Z.of_nat (length c) ≤ chunk_size
     ∨ ∃ j' prev w,
         j = S j'
         ∧ split_text text chunk_size chunk_overlap !! j' = Some prev
         ∧ split c = slice_last chunk_overlap (split prev) ++ [w]).
Proof.
  intros Hpos Hj.
  destruct (split_text_words chunk_size chunk_overlap text)
    as (wss & E & Hws & Hfirst & Hadj).
  rewrite E in *. rewrite list_lookup_fmap in Hj.
  destruct (wss !! j) as [ws|] eqn:Hw; [|done].
  simpl in Hj. injection Hj as <-.
  destruct j as [|j'].
  - assert (Z.of_nat (length (join (pystr " ") ws)) ≤ chunk_size) as Hle.
    { apply fits_length; [done|]. apply Hfirst. by destruct wss. }
    split; [done|]. by left.
  - split; [done|].
    destruct (lookup_lt_is_Some_2 wss j') as [prev Hprev];
      [apply lookup_lt_Some in Hw; lia|].
    destruct (Hadj j' prev ws Hprev Hw) as [_ [Hfits|[w ->]]].
    + left. by apply fits_length.
    + right. exists j', (join (pystr " ") prev), w. split; [done|].
      rewrite list_lookup_fmap, Hprev. split; [done|].
      rewrite !split_join; [done|..].
      * eapply Forall_lookup_1; eauto.
      * eapply Forall_lookup_1; eauto.
Qed.

Lemma split_text_budget_witness :
  (0%nat = 0%nat → Z.of_nat (length (pystr "aa bb")) ≤ 6)
  ∧ (Z.of_nat (length (pystr "aa bb")) ≤ 6
     ∨ ∃ j' prev w,
         0%nat = S j'
         ∧ split_text (pystr "aa bb cc dd ee ff") 6 1 !! j' = Some prev
         ∧ split (pystr "aa bb") = slice_last 1 (split prev) ++ [w]).
Proof.
  apply (split_text_budget (pystr "aa bb cc dd ee ff") 6 1 0 (pystr "aa bb")).
  - vm_compute. discriminate.
  - vm_compute. reflexivity.
Defined.

(** The seed itself is not compared with the budget.  201 four-letter
    words: the 200 first ones fill the first chunk exactly
    (200 * 5 = 1000); the next chunk starts with the last 200 words of it
    and the word that did not fit: 201 words, 1004 characters. *)
Example split_text_seed_over_budget :
  let text := mjoin (replicate 201 (pystr "abcd ")) in
  length <$> split_text text default_chunk_size default_chunk_overlap
  = [999; 1004]%nat.
Proof. vm_compute. reflexivity. Qed.

(** A token longer than the budget, after an empty first chunk. *)
Example split_text_long_word :
  split_text (pystr "incomprehensibilities") 10 2
  = [ []; pystr "incomprehensibilities" ].
Proof. vm_compute. reflexivity. Qed.

(** C4 as stated fails: a text without any word is shorter than the budget
    and gives no chunk at all. *)
Lemma split_text_short_counterexample :
  Z.of_nat (length (pystr "")) < default_chunk_size
  ∧ Z.of_nat (length (pystr "  ")) < default_chunk_size
  ∧ ¬ (∃ c, split_text (pystr "") default_chunk_size default_chunk_overlap
            = [c])
  ∧ ¬ (∃ c, split_text (pystr "  ") default_chunk_size default_chunk_overlap
            = [c]).
Proof.
  repeat split; try (vm_compute; reflexivity).
  - intros [c Hc]. vm_compute in Hc. discriminate.
  - intros [c Hc]. vm_compute in Hc. discriminate.
Qed.

(** C4, amended.  A text shorter than the budget that holds at least one
    word gives exactly one chunk, its words joined by single spaces; a
    text without words gives no chunk. *)
Theorem split_text_short text chunk_size chunk_overlap :
  Z.of_nat (length text) < chunk_size →
  (split text ≠ [] →
   split_text text chunk_size chunk_overlap
   = [join (pystr " ") (split text)])
  ∧ (split text = [] → split_text text chunk_size chunk_overlap = []).
Proof.
  intros Hlen. pose proof (split_sum_lengths text) as Hsum.
  unfold split_text. rewrite split_loop_fits by (simpl; lia). simpl.
  split; intros Hw; destruct (split text); done.
Qed.

Lemma split_text_short_witness :
  split_text (pystr " to be  or not to be ") default_chunk_size
    default_chunk_overlap
  = [pystr "to be or not to be"].
Proof.
  etrans.
  - refine (proj1 (split_text_short (pystr " to be  or not to be ")
                     default_chunk_size default_chunk_overlap _) _).
    + vm_compute. reflexivity.
    + intros H. vm_compute in H. discriminate H.
  - vm_compute. reflexivity.
Defined.

(** Closing a chunk: what [split_step] does with a word that does not
    fit. *)
Lemma split_step_overflow chunk_size chunk_overlap st w :
  chunk_size < current_length st + Z.of_nat (length w) + 1 →
  split_step chunk_size chunk_overlap st w
  = {| chunks := chunks st ++ [join (pystr " ") (current_chunk st)];
       current_chunk := slice_last chunk_overlap (current_chunk st) ++ [w];
       current_length :=
         sum_lengths (slice_last chunk_overlap (current_chunk st) ++ [w]) |}.
Proof.
  intros Hlt. unfold split_step.
  by destruct (Z.leb_spec (current_length st + Z.of_nat (length w) + 1)
                 chunk_size); [lia|].
Qed.

(** C9. When the first token is at least as long as the budget, the loop
    closes the chunk it has not started yet: the first chunk is the empty
    string.  So a chunk of [split_text] need not be non-empty. *)
Theorem split_text_empty_first_chunk text chunk_size chunk_overlap w ws :
  split text = w :: ws →
  chunk_size ≤ Z.of_nat (length w) →
  ∃ rest, split_text text chunk_size chunk_overlap = [] :: rest.
Proof.
  intros Hsplit Hlong. unfold split_text.
  rewrite Hsplit, split_loop_cons, split_step_overflow by (simpl; lia).
  match goal with
  | |- context [split_loop _ _ ws ?s] =>
      destruct (split_loop_chunks_prefix chunk_size chunk_overlap ws s)
        as [k Hk]; rewrite Hk
  end.
  destruct (current_chunk (split_loop _ _ _ _)); simpl; eauto.
Qed.

Lemma split_text_empty_first_chunk_witness :
  ∃ rest, split_text (pystr "aaaaaaaaaa bb") 6 1 = [] :: rest.
Proof.
  apply (split_text_empty_first_chunk (pystr "aaaaaaaaaa bb") 6 1
           (pystr "aaaaaaaaaa") [pystr "bb"]).
  - vm_compute. reflexivity.
  - vm_compute. discriminate.
Defined.

(** * Properties of the chunk identifiers *)

Section Identifiers.

Lemma digits_inj d d' : digits d = digits d' → d = d'.
Proof.
  revert d'. induction d; intros d' E; destruct d'; simpl in E;
    try discriminate; try done; f_equal; apply IHd; congruence.
Qed.

Lemma digits_not_elem c d : (c < 48 ∨ 57 < c)%N → c ∉ digits d.
Proof.
  intros Hc. induction d; simpl; [apply not_elem_of_nil|..];
    (apply not_elem_of_cons; split; [lia|done]).
Qed.

Lemma str_of_int_inj z z' : str_of_int z = str_of_int z' → z = z'.
Proof.
  unfold str_of_int. intros E. apply DecimalZ.to_int_inj.
  destruct (Z.to_int z) as [d|d], (Z.to_int z') as [d'|d'].
  - f_equal. by apply digits_inj.
  - exfalso. pose proof (digits_not_elem 45 d) as Hd.
    rewrite E in Hd. apply Hd; [lia|]. by left.
  - exfalso. pose proof (digits_not_elem 45 d') as Hd.
    rewrite <- E in Hd. apply Hd; [lia|]. by left.
  - f_equal. apply digits_inj. congruence.
Qed.

(** No underscore in the rendering of an integer. *)
Lemma str_of_int_no_underscore z : 95%N ∉ str_of_int z.
Proof.
  unfold str_of_int. destruct (Z.to_int z) as [d|d].
  - apply digits_not_elem. lia.
  - apply not_elem_of_cons. split; [done|]. apply digits_not_elem. lia.
Qed.

(** Two strings that start with an integer followed by an underscore
    start with the same integer when they are equal. *)
Lemma int_prefix_inj z z' (x y : str) :
  str_of_int z ++ pystr "_" ++ x = str_of_int z' ++ pystr "_" ++ y → z = z'.
Proof.
  intros E. apply str_of_int_inj.
  change (pystr "_" ++ ?t) with (95%N :: t) in E.
  eapply (prefix_not_elem_of_app_cons_inv 95%N 95%N).
  - apply str_of_int_no_underscore.
  - apply str_of_int_no_underscore.
  - by rewrite E.
Qed.

Lemma chunk_id_inj user_id semester subject base i j :
  chunk_id user_id semester subject base i
  = chunk_id user_id semester subject base j → i = j.
Proof.
  unfold chunk_id. rewrite !join_cons_cons. intros E.
  repeat match type of E with
         | ?a ++ _ = ?a ++ _ => apply (app_inv_head a) in E
         end.
  by apply str_of_int_inj, Nat2Z.inj in E.
Qed.

Lemma doc_id_chunk_id file_path (metadata : gmap string value)
    user_id semester subject i :
  metadata !! "user_id" = Some user_id →
  metadata !! "semester" = Some semester →
  metadata !! "subject" = Some subject →
  doc_id file_path metadata i
  = Ok (chunk_id user_id semester subject (basename file_path) i).
Proof. intros Hu Hs Hsub. unfold doc_id, getitem. by rewrite Hu, Hs, Hsub. Qed.

(** What the loop of [ingest_document] appends: the chunks as they are,
    the caller's metadata once per chunk, and one [doc_id] per index. *)
Lemma ingest_loop_ok file_path (metadata : gmap string value) i chunks b b' :
  ingest_loop file_path metadata i chunks b = Ok b' →
  documents b' = documents b ++ chunks
  ∧ metadatas b' = metadatas b ++ replicate (length chunks) metadata
  ∧ ∃ new, ids b' = ids b ++ new
      ∧ length new = length chunks
      ∧ ∀ j id, new !! j = Some id →
          doc_id file_path metadata (i + j) = Ok id.
Proof.
  revert i b. induction chunks as [|chunk chunks IH]; intros i b Hloop.
  - simpl in Hloop. injection Hloop as <-. rewrite !app_nil_r.
    split; [done|]. split; [done|]. exists []. by rewrite app_nil_r.
  - simpl in Hloop. destruct (doc_id file_path metadata i) as [id|e] eqn:Hid;
      [|done].
    apply IH in Hloop as (Hd & Hm & new & Hids & Hlen & Hnew). simpl in *.
    rewrite <- !app_assoc in *. split; [done|]. split; [done|].
    exists (id :: new). split; [done|]. split; [simpl; lia|].
    intros [|j] id' Hj; simpl in Hj.
    + injection Hj as <-. by rewrite Nat.add_0_r.
    + apply Hnew in Hj. by rewrite Nat.add_succ_r.
Qed.

(** With the three keys present the loop does not raise. *)
Lemma ingest_loop_total file_path (metadata : gmap string value) i chunks b :
  is_Some (metadata !! "user_id") → is_Some (metadata !! "semester") →
  is_Some (metadata !! "subject") →
  ∃ b', ingest_loop file_path metadata i chunks b = Ok b'.
Proof.
  intros [u Hu] [s Hs] [sub Hsub]. revert i b.
  induction chunks as [|chunk chunks IH]; intros i b; simpl; [by eexists|].
  rewrite (doc_id_chunk_id _ _ u s sub) by done. apply IH.
Qed.

End Identifiers.

(** C6. With the keys [user_id], [semester] and [subject] in the metadata,
    the loop of [ingest_document] gives the chunk of index [i] the
    identifier made of the user id, the semester, the subject, the
    basename of the path and [i], joined by underscores; the identifiers
    of one call are pairwise distinct; and a call for another integer user
    id shares none of them, whatever its semester, subject and path (so
    also when they are the same). *)
Theorem ingest_ids file_path (metadata : gmap string value) chunks
    user_id semester subject :
  metadata !! "user_id" = Some user_id →
  metadata !! "semester" = Some semester →
  metadata !! "subject" = Some subject →
  ∃ b, ingest_loop file_path metadata 0 chunks (Batch [] [] []) = Ok b
    ∧ length (ids b) = length chunks
    ∧ (∀ i, (i < length chunks)%nat →
         ids b !! i
         = Some (join (pystr "_")
                   [format user_id; format semester; format subject;
                    basename file_path; str_of_int (Z.of_nat i)]))
    ∧ NoDup (ids b)
    ∧ ∀ uid uid' file_path' (metadata' : gmap string value) chunks' b',
        user_id = VInt uid →
        metadata' !! "user_id" = Some (VInt uid') →
        uid ≠ uid' →
        ingest_loop file_path' metadata' 0 chunks' (Batch [] [] []) = Ok b' →
        ∀ id, id ∈ ids b → id ∉ ids b'.
Proof.
  intros Hu Hs Hsub.
  destruct (ingest_loop_total file_path metadata 0 chunks (Batch [] [] []))
    as [b Hb]; [by eexists..|].
  exists b. split; [done|].
  destruct (ingest_loop_ok _ _ _ _ _ _ Hb) as (_ & _ & new & Hids & Hlen & Hnew).
  simpl in Hids. subst new.
  assert (∀ i id, ids b !! i = Some id →
            id = chunk_id user_id semester subject (basename file_path) i)
    as Hid.
  { intros i id Hi. apply Hnew in Hi. simpl in Hi.
    rewrite (doc_id_chunk_id _ _ user_id semester subject) in Hi by done.
    by injection Hi. }
  split; [done|]. split; [|split].
  - intros i Hi. destruct (lookup_lt_is_Some_2 (ids b) i) as [id Hlk]; [lia|].
    rewrite Hlk. f_equal. by apply Hid.
  - apply NoDup_alt. intros i j id Hi Hj.
    apply Hid in Hi, Hj. subst id. by eapply chunk_id_inj.
  - intros uid uid' file_path' metadata' chunks' b' -> Hu' Hne Hb' id Hin Hin'.
    apply list_elem_of_lookup in Hin as [i Hi].
    apply list_elem_of_lookup in Hin' as [i' Hi'].
    apply Hid in Hi.
    destruct (ingest_loop_ok _ _ _ _ _ _ Hb') as (_ & _ & new & Hids' & _ & Hnew').
    simpl in Hids'. subst new. apply Hnew' in Hi'.
    unfold doc_id, getitem in Hi'. rewrite Hu' in Hi'.
    destruct (metadata' !! "semester"); [|done].
    destruct (metadata' !! "subject"); [|done].
    injection Hi' as Hi'. rewrite Hi in Hi'.
    unfold chunk_id in Hi'. rewrite join_cons_cons in Hi'. simpl format in Hi'.
    by apply int_prefix_inj in Hi'.
Qed.

(** * Properties of the RAGSystem methods *)

(** The user id is in the filter whatever the other arguments. *)
Lemma query_filter_user_id user_id semester subject :
  query_filter user_id semester subject !! "user_id" = Some (VInt user_id).
Proof.
  unfold query_filter.
  destruct semester as [s|], subject as [[|c sub]|];
    try destruct (Z.eqb_spec s 0); by simplify_map_eq.
Qed.

(** C5. The filter of [query] always holds the user id.  It holds a
    semester exactly when the argument is given and is not zero, a subject
    exactly when the argument is given and is not the empty string, and no
    other key.  With neither given, or with semester [0], it restricts by
    owner only. *)
Theorem query_filter_keys user_id semester subject :
  let filter := query_filter user_id semester subject in
  filter !! "user_id" = Some (VInt user_id)
  ∧ (is_Some (filter !! "semester") ↔ ∃ s, semester = Some s ∧ s ≠ 0)
  ∧ (∀ s, semester = Some s → s ≠ 0 → filter !! "semester" = Some (VInt s))
  ∧ (is_Some (filter !! "subject") ↔ ∃ s, subject = Some s ∧ s ≠ [])
  ∧ (∀ s, subject = Some s → s ≠ [] → filter !! "subject" = Some (VStr s))
  ∧ (∀ key, is_Some (filter !! key) →
       key = "user_id" ∨ key = "semester" ∨ key = "subject")
  ∧ query_filter user_id None None = {[ "user_id" := VInt user_id ]}
  ∧ query_filter user_id (Some 0) None = {[ "user_id" := VInt user_id ]}.
Proof.
  split; [apply query_filter_user_id|].
  unfold query_filter. repeat split.
  - intros [v Hv]. destruct semester as [s|], subject as [[|c sub]|];
      try destruct (Z.eqb_spec s 0); simplify_map_eq; eauto.
  - intros (s & -> & Hs). destruct (Z.eqb_spec s 0); [done|].
    destruct subject as [[|c sub]|]; simplify_map_eq; eauto.
  - intros s -> Hs. destruct (Z.eqb_spec s 0); [done|].
    destruct subject as [[|c sub]|]; by simplify_map_eq.
  - intros [v Hv]. destruct semester as [s|], subject as [[|c sub]|];
      try destruct (Z.eqb_spec s 0); simplify_map_eq; eauto.
  - intros (s & -> & Hs). destruct s as [|c sub]; [done|].
    destruct semester as [s|]; try destruct (Z.eqb_spec s 0);
      simplify_map_eq; eauto.
  - intros s -> Hs. destruct s as [|c sub]; [done|].
    destruct semester as [s|]; try destruct (Z.eqb_spec s 0);
      by simplify_map_eq.
  - intros key [v Hv].
    destruct (decide (key = "user_id")) as [|H1]; [by left|].
    destruct (decide (key = "semester")) as [|H2]; [by right; left|].
    destruct (decide (key = "subject")) as [|H3]; [by right; right|].
    destruct semester as [s|], subject as [[|c sub]|];
      try destruct (Z.eqb_spec s 0); simplify_map_eq.
Qed.

Lemma titles_elem docs ts t :
  titles docs = Ok ts → t ∈ ts →
  ∃ d, d ∈ docs ∧ metadata d !! "title" = Some t.
Proof.
  revert ts. induction docs as [|d docs IH]; intros ts Hts Ht; simpl in Hts.
  - injection Hts as <-. by apply elem_of_nil in Ht.
  - unfold getitem in Hts.
    destruct (metadata d !! "title") as [t'|] eqn:Hd; [|done].
    destruct (titles docs) as [ts'|] eqn:Hts'; [|done].
    injection Hts as <-. apply elem_of_cons in Ht as [->|Ht].
    + exists d. split; [by left|done].
    + destruct (IH ts' eq_refl Ht) as (d' & Hin & Hd'). exists d'.
      split; [by right|done].
Qed.

Section MethodFacts.

Context `{VectorStore store}.
Variable fs : FileReaders.
Variable llm : str → outcome str.

Ltac unfold_monad :=
  unfold try_except, mbind, M_bind, mret, M_ret, lift, reads.
Ltac unfold_monad_in H :=
  unfold try_except, mbind, M_bind, mret, M_ret, lift, reads in H.

(** C7. [ingest_document] returns a boolean and never raises.  The boolean
    is [True] exactly when extraction succeeds, the batch is built and the
    one call to [add_texts] returns.  When extraction raises the store is
    untouched; when [add_texts] raises the store is left as that call left
    it, whatever it had written.  With the keys [user_id], [semester] and
    [subject] in the metadata the batch is always built: the chunks, each
    with the caller's metadata. *)
Theorem ingest_document_result file_path metadata (vs : store) :
  ∃ success vs',
    ingest_document fs file_path metadata vs = (Ok success, vs')
    ∧ (success = true ↔
       ∃ text b u,
         extract_text_from_file fs file_path = Ok text
         ∧ ingest_loop file_path metadata 0
             (split_text text default_chunk_size default_chunk_overlap)
             (Batch [] [] []) = Ok b
         ∧ add_texts (documents b) (metadatas b) (ids b) vs = (Ok u, vs'))
    ∧ (∀ e, extract_text_from_file fs file_path = Raise e →
         success = false ∧ vs' = vs)
    ∧ (∀ text b e vs1,
         extract_text_from_file fs file_path = Ok text →
         ingest_loop file_path metadata 0
           (split_text text default_chunk_size default_chunk_overlap)
           (Batch [] [] []) = Ok b →
         add_texts (documents b) (metadatas b) (ids b) vs = (Raise e, vs1) →
         success = false ∧ vs' = vs1)
    ∧ (is_Some (metadata !! "user_id") →
       is_Some (metadata !! "semester") →
       is_Some (metadata !! "subject") →
       ∀ text,
         let chunks :=
           split_text text default_chunk_size default_chunk_overlap in
         ∃ b, ingest_loop file_path metadata 0 chunks (Batch [] [] []) = Ok b
           ∧ documents b = chunks
           ∧ metadatas b = replicate (length chunks) metadata).
Proof.
  assert (is_Some (metadata !! "user_id") →
          is_Some (metadata !! "semester") →
          is_Some (metadata !! "subject") →
          ∀ text,
            let chunks :=
              split_text text default_chunk_size default_chunk_overlap in
            ∃ b, ingest_loop file_path metadata 0 chunks (Batch [] [] [])
                 = Ok b
              ∧ documents b = chunks
              ∧ metadatas b = replicate (length chunks) metadata) as Hrecord.
  { intros Hu Hs Hsub text chunks.
    destruct (ingest_loop_total file_path metadata 0 chunks (Batch [] [] []))
      as [b Hb]; [done..|].
    exists b. split; [done|].
    by destruct (ingest_loop_ok _ _ _ _ _ _ Hb) as (? & ? & _). }
  unfold ingest_document, ingest_body. unfold_monad.
  destruct (extract_text_from_file fs file_path) as [text|e] eqn:Hx.
  - destruct (ingest_loop _ _ _ _ _) as [b|e] eqn:Hloop.
    + destruct (add_texts _ _ _ vs) as [[u|e] vs1] eqn:Hadd.
      * exists true, vs1. split; [done|]. split; [|split; [|split; [|exact Hrecord]]].
        -- split; [|done]. intros _. by exists text, b, u.
        -- intros e [=].
        -- intros text' b' e vs2 [= <-] Hb Hadd'.
           rewrite Hloop in Hb. injection Hb as <-. congruence.
      * exists false, vs1. split; [done|]. split; [|split; [|split; [|exact Hrecord]]].
        -- split; [done|]. intros (text' & b' & u & [= <-] & Hb & Hadd').
           rewrite Hloop in Hb. injection Hb as <-. congruence.
        -- intros e' [=].
        -- intros text' b' e' vs2 [= <-] Hb Hadd'.
           rewrite Hloop in Hb. injection Hb as <-. split; congruence.
    + exists false, vs. split; [done|]. split; [|split; [|split; [|exact Hrecord]]].
      * split; [done|]. intros (text' & b' & u & [= <-] & Hb & _). congruence.
      * intros e' [=].
      * intros text' b' e' vs2 [= <-] Hb. congruence.
  - exists false, vs. split; [done|]. split; [|split; [|split; [|exact Hrecord]]].
    + split; [done|]. by intros (text' & b' & u & [=] & _).
    + done.
    + by intros text' b' e' vs2 [=].
Qed.

(** C10, amended.  A file whose text holds no word: the chunker returns no
    chunk, the loop builds the empty batch and [add_texts] is called with
    three empty lists.  When that call returns, [ingest_document] returns
    [True] and the store holds what it held before; when it raises,
    [ingest_document] returns [False]. *)
Theorem ingest_empty_document file_path metadata (vs : store) text :
  extract_text_from_file fs file_path = Ok text →
  split text = [] →
  split_text text default_chunk_size default_chunk_overlap = []
  ∧ ingest_loop file_path metadata 0
      (split_text text default_chunk_size default_chunk_overlap)
      (Batch [] [] []) = Ok (Batch [] [] [])
  ∧ (∀ u vs', add_texts [] [] [] vs = (Ok u, vs') →
       ingest_document fs file_path metadata vs = (Ok true, vs')
       ∧ collection vs' = collection vs)
  ∧ (∀ e vs', add_texts [] [] [] vs = (Raise e, vs') →
       ingest_document fs file_path metadata vs = (Ok false, vs')).
Proof.
  intros Hx Hsplit.
  assert (split_text text default_chunk_size default_chunk_overlap = [])
    as Hchunks by (unfold split_text; by rewrite Hsplit).
  split; [done|]. rewrite Hchunks. split; [done|].
  unfold ingest_document, ingest_body. unfold_monad.
  rewrite Hx, Hchunks. simpl. split.
  - intros u vs' Hadd. rewrite Hadd. split; [done|].
    by eapply add_texts_empty.
  - intros e vs' Hadd. by rewrite Hadd.
Qed.

(** C1. Whatever the store holds and whatever the scope, the chunks [query]
    retrieves are chunks of the store whose metadata carries the user id
    of the request, and every source it returns is the title of such a
    chunk. *)
Theorem query_owner_only question user_id semester subject (vs : store) r vs' :
  query llm question user_id semester subject vs = (Ok r, vs') →
  (∀ docs,
     similarity_search vs question
       (query_filter user_id semester subject) 4 = Ok docs →
     ∀ d, d ∈ docs →
       metadata d !! "user_id" = Some (VInt user_id)
       ∧ ∃ id, collection vs !! id = Some d)
  ∧ (∀ t, t ∈ sources r →
       ∃ id d, collection vs !! id = Some d
         ∧ metadata d !! "user_id" = Some (VInt user_id)
         ∧ metadata d !! "title" = Some t).
Proof.
  intros Hq.
  assert (∀ docs,
     similarity_search vs question
       (query_filter user_id semester subject) 4 = Ok docs →
     ∀ d, d ∈ docs →
       metadata d !! "user_id" = Some (VInt user_id)
       ∧ ∃ id, collection vs !! id = Some d) as Hdocs.
  { intros docs Hs d Hd.
    destruct (similarity_search_filtered _ _ _ _ _ Hs d Hd) as [Hid Hsub].
    split; [|done]. eapply map_subseteq_spec; [exact Hsub|].
    apply query_filter_user_id. }
  split; [done|]. intros t Ht.
  unfold query, query_body, qa_chain in Hq. unfold_monad_in Hq.
  destruct (similarity_search vs question _ 4) as [docs|e] eqn:Hs;
    [|injection Hq as <- _; by apply elem_of_nil in Ht].
  destruct (llm _) as [result|e];
    [|injection Hq as <- _; by apply elem_of_nil in Ht].
  simpl in Hq. destruct (titles docs) as [ts|e] eqn:Hts;
    [|injection Hq as <- _; by apply elem_of_nil in Ht].
  injection Hq as <- _. simpl in Ht. rewrite elem_of_remove_dups in Ht.
  destruct (titles_elem docs ts t Hts Ht) as (d & Hd & Htitle).
  destruct (Hdocs docs eq_refl d Hd) as [Hu [id Hid]]. by exists id, d.
Qed.

(** C8. [query] returns a response and never raises, and leaves the store
    as it was.  Whenever the body of its [try] raises, in particular when
    retrieval or generation does, the response is the fixed sentence with
    no source. *)
Theorem query_never_raises question user_id semester subject (vs : store) :
  let fallback := {| answer := fallback_answer; sources := [] |} in
  (∃ r, query llm question user_id semester subject vs = (Ok r, vs))
  ∧ answer fallback
    = pystr "Sorry, I encountered an error processing your request."
  ∧ (∀ e vs1,
       query_body llm question user_id semester subject vs = (Raise e, vs1) →
       query llm question user_id semester subject vs = (Ok fallback, vs1))
  ∧ (∀ e,
       similarity_search vs question
         (query_filter user_id semester subject) 4 = Raise e →
       query llm question user_id semester subject vs = (Ok fallback, vs))
  ∧ (∀ docs e,
       similarity_search vs question
         (query_filter user_id semester subject) 4 = Ok docs →
       llm (prompt_template
              (join (newline ++ newline) (page_content <$> docs)) question)
       = Raise e →
       query llm question user_id semester subject vs = (Ok fallback, vs)).
Proof.
  intros fallback. split; [|split; [done|split; [|split]]].
  - unfold query, query_body, qa_chain. unfold_monad.
    destruct (similarity_search vs question _ 4) as [docs|e]; [|by eexists].
    destruct (llm _) as [result|e]; [|by eexists].
    simpl. destruct (titles docs); by eexists.
  - intros e vs1 Hbody. unfold query. unfold_monad. by rewrite Hbody.
  - intros e Hs. unfold query, query_body, qa_chain. unfold_monad.
    by rewrite Hs.
  - intros docs e Hs Hllm. unfold query, query_body, qa_chain. unfold_monad.
    by rewrite Hs, Hllm.
Qed.

End MethodFacts.

(** * The pipeline on the reference store *)

(** One chunk per short file, named after owner, semester, subject,
    basename and index. *)
Example two_owners_ids :
  dom (RefStore.entries Demo.two_owners)
  = {[ pystr "1_1_General_1_notes.txt_0"; pystr "2_1_General_2_notes.txt_0" ]}.
Proof. vm_compute. reflexivity. Qed.

(** User 1 asks: the one source is the title of user 1's chunk. *)
Example query_own_documents :
  query Demo.llm (pystr "What does Rocq check?") 1 None None Demo.two_owners
  = (Ok {| answer := pystr "I don't know.";
           sources := [VStr (pystr "notes.txt")] |}, Demo.two_owners).
Proof. vm_compute. reflexivity. Qed.

(** A user without documents, and a semester without documents: an answer
    and no source. *)
Example query_no_match :
  query Demo.llm (pystr "What does Rocq check?") 3 None None Demo.two_owners
  = (Ok {| answer := pystr "I don't know."; sources := [] |},
     Demo.two_owners)
  ∧ query Demo.llm (pystr "What does Rocq check?") 1 (Some 2) None
      Demo.two_owners
    = (Ok {| answer := pystr "I don't know."; sources := [] |},
       Demo.two_owners).
Proof. vm_compute. split; reflexivity. Qed.

(** Retrieval raises: the fixed sentence. *)
Example query_store_down :
  let vs := RefStore.Build (RefStore.entries Demo.two_owners) None false in
  query Demo.llm (pystr "What does Rocq check?") 1 None None vs
  = (Ok {| answer :=
             pystr "Sorry, I encountered an error processing your request.";
           sources := [] |}, vs).
Proof. vm_compute. reflexivity. Qed.

(** A write that raises after one entry: [ingest_document] returns [False]
    and the entry stays in the store. *)
Example ingest_partial_write_kept :
  let vs := RefStore.Build ∅ (Some 1%nat) true in
  let r := ingest_document Demo.fs (pystr "uploads/3_long.txt")
             (Demo.upload_metadata 3 1 "General" "long.txt") vs in
  r.1 = Ok false
  ∧ dom (RefStore.entries r.2) = {[ pystr "3_1_General_3_long.txt_0" ]}.
Proof. vm_compute. split; reflexivity. Qed.

Example ingest_unreadable_file :
  ingest_document Demo.fs (pystr "uploads/9_missing.pdf")
    (Demo.upload_metadata 9 1 "General" "missing.pdf") Demo.empty_store
  = (Ok false, Demo.empty_store).
Proof. vm_compute. reflexivity. Qed.

Lemma ingest_ids_witness :
  ∃ b, ingest_loop (pystr "uploads/1_notes.txt")
         (Demo.upload_metadata 1 1 "General" "notes.txt") 0
         [pystr "first chunk"; pystr "second chunk"] (Batch [] [] []) = Ok b
    ∧ ids b = [pystr "1_1_General_1_notes.txt_0";
               pystr "1_1_General_1_notes.txt_1"].
Proof.
  destruct (ingest_ids (pystr "uploads/1_notes.txt")
              (Demo.upload_metadata 1 1 "General" "notes.txt")
              [pystr "first chunk"; pystr "second chunk"]
              (VInt 1) (VInt 1) (VStr (pystr "General"))
              eq_refl eq_refl eq_refl) as (b & Hb & _).
  exists b. split; [exact Hb|].
  vm_compute in Hb. injection Hb as <-. vm_compute. reflexivity.
Defined.

Lemma ingest_empty_document_witness :
  ingest_document Demo.fs (pystr "uploads/1_blank.txt")
    (Demo.upload_metadata 1 1 "General" "blank.txt") Demo.empty_store
  = (Ok true, Demo.empty_store)
  ∧ collection Demo.empty_store = collection Demo.empty_store.
Proof.
  refine (proj1 (proj2 (proj2
            (ingest_empty_document Demo.fs (pystr "uploads/1_blank.txt")
               (Demo.upload_metadata 1 1 "General" "blank.txt")
               Demo.empty_store (pystr "   ") _ _))) () Demo.empty_store _).
  - vm_compute. reflexivity.
  - vm_compute. reflexivity.
  - vm_compute. reflexivity.
Defined.

(** C10 as stated fails: the write of the empty batch is a call to the
    store like any other, and when the store raises [ingest_document]
    returns [False] for the blank file too. *)
Lemma ingest_empty_document_counterexample :
  let vs := RefStore.Build ∅ (Some 0%nat) true in
  extract_text_from_file Demo.fs (pystr "uploads/1_blank.txt")
  = Ok (pystr "   ")
  ∧ split (pystr "   ") = []
  ∧ (ingest_document Demo.fs (pystr "uploads/1_blank.txt")
       (Demo.upload_metadata 1 1 "General" "blank.txt") vs).1 = Ok false.
Proof. vm_compute. repeat split; reflexivity. Qed.

Lemma query_owner_only_witness :
  ∃ id d, RefStore.entries Demo.two_owners !! id = Some d
    ∧ metadata d !! "user_id" = Some (VInt 1)
    ∧ metadata d !! "title" = Some (VStr (pystr "notes.txt")).
Proof.
  refine (proj2 (query_owner_only Demo.llm (pystr "What does Rocq check?") 1
                   (Some 1) None Demo.two_owners
                   {| answer := pystr "I don't know.";
                      sources := [VStr (pystr "notes.txt")] |}
                   Demo.two_owners _) (VStr (pystr "notes.txt")) _).
  - vm_compute. reflexivity.
  - simpl. by left.
Defined.

(** * Further properties of the chunker *)

Section Cover.

Variables chunk_size chunk_overlap : Z.

Lemma last_cons_default {A} (a prev : A) l :
  default prev (last (a :: l)) = default a (last l).
Proof. rewrite last_cons. by destruct (last l). Qed.

Lemma strip_overlaps_snoc prev wss b :
  strip_overlaps chunk_overlap prev (wss ++ [b])
  = strip_overlaps chunk_overlap prev wss
    ++ drop (length (slice_last chunk_overlap (default prev (last wss)))) b.
Proof.
  revert prev. induction wss as [|a wss IH]; intros prev.
  - simpl. by rewrite app_nil_r.
  - rewrite last_cons_default. simpl. by rewrite IH, app_assoc.
Qed.

Lemma subseteq_app_r (l k k' : list str) : l ⊆ k → l ⊆ k ++ k'.
Proof. intros Hl x Hx. apply elem_of_app. left. by apply Hl. Qed.

Lemma subseteq_snoc (l k : list str) w : l ⊆ k → l ++ [w] ⊆ k ++ [w].
Proof.
  intros Hl x Hx. apply elem_of_app in Hx as [Hx|Hx]; apply elem_of_app.
  - left. by apply Hl.
  - by right.
Qed.

Lemma strip_overlaps_single ws : strip_overlaps chunk_overlap [] [ws] = ws.
Proof. simpl. by rewrite slice_last_nil, app_nil_r. Qed.



Lemma join_nil ws :
  Forall word_ok ws → join (pystr " ") ws = [] → ws = [].
Proof.
  intros Hws Hj. destruct ws as [|w ws]; [done|].
  apply Forall_cons in Hws as [[Hne _] _].
  destruct ws; simpl in Hj; [done|]. by destruct w.
Qed.

Lemma fmap_split_join wss :
  Forall (Forall word_ok) wss →
  split <$> (join (pystr " ") <$> wss) = wss.
Proof.
  induction 1 as [|ws wss Hws _ IH]; [done|].
  rewrite !fmap_cons, split_join by done. by rewrite IH.
Qed.

Lemma first_too_long_snoc consumed w :
  consumed ≠ [] →
  first_too_long chunk_size (consumed ++ [w])
  ↔ first_too_long chunk_size consumed.
Proof. by destruct consumed. Qed.

Lemma cover_inv_init :
  cover_inv chunk_size chunk_overlap [] (LoopState [] [] 0) [].
Proof.
  split; try done.
  - simpl. by rewrite slice_last_nil.
  - intros ws Hin. simpl in Hin. apply list_elem_of_singleton in Hin as ->.
    done.
  - by left.
Qed.

Lemma split_step_cover consumed st closed w :
  word_ok w →
  cover_inv chunk_size chunk_overlap consumed st closed →
  ∃ closed',
    cover_inv chunk_size chunk_overlap (consumed ++ [w])
      (split_step chunk_size chunk_overlap st w) closed'.
Proof.
  intros Hw [Hc Hws Hcur Hlen Hadj Hlast Hstrip Hsub Hne Hfirst Hcount].
  unfold split_step.
  destruct (Z.leb_spec (current_length st + Z.of_nat (length w) + 1)
              chunk_size) as [Hfit|Hover].
  - exists closed. split; simpl; try done.
    + apply Forall_app. split; [done|]. by constructor.
    + rewrite sum_lengths_snoc. lia.
    + intros a Ha. destruct (Hlast a Ha) as (w0 & rest & Hb & Hw0 & _).
      exists w0, (rest ++ [w]). split; [|split; [done|]].
      * rewrite Hb. by rewrite <- app_assoc.
      * right. rewrite sum_lengths_snoc. lia.
    + rewrite strip_overlaps_snoc in *. rewrite <- Hstrip.
      rewrite <- app_assoc. f_equal. apply drop_app_le.
      destruct (last closed) as [a|] eqn:Ha; simpl.
      * destruct (Hlast a eq_refl) as (w0 & rest & -> & _).
        rewrite length_app. lia.
      * rewrite slice_last_nil. simpl. lia.
    + intros ws Hin. apply elem_of_app in Hin as [Hin|Hin].
      * apply subseteq_app_r, Hsub, elem_of_app. by left.
      * apply list_elem_of_singleton in Hin as ->.
        apply subseteq_snoc, Hsub, elem_of_app. right. by left.
    + intros _. by destruct (current_chunk st).
    + destruct closed as [|a closed].
      * right. rewrite sum_lengths_snoc. lia.
      * rewrite first_too_long_snoc; [done|].
        intros ->. simpl in Hcount. lia.
    + rewrite length_app. simpl. lia.
  - exists (closed ++ [current_chunk st]). split; simpl.
    + by rewrite fmap_app, Hc.
    + apply Forall_app. split; [done|]. by constructor.
    + apply Forall_app. split; [|by constructor].
      destruct (slice_last_suffix chunk_overlap (current_chunk st)) as [k Hk].
      rewrite Hk in Hcur. by apply Forall_app in Hcur as [_ ?].
    + done.
    + by apply adjacent_snoc.
    + intros a Ha. rewrite last_snoc in Ha. injection Ha as <-.
      exists w, []. split; [done|]. split; [lia|by left].
    + rewrite strip_overlaps_snoc, Hstrip, last_snoc. simpl.
      by rewrite drop_app_length.
    + intros ws Hin. apply elem_of_app in Hin as [Hin|Hin].
      * by apply subseteq_app_r, Hsub.
      * apply list_elem_of_singleton in Hin as ->.
        apply subseteq_snoc. intros x Hx. eapply Hsub.
        -- apply elem_of_app. right. by left.
        -- destruct (slice_last_suffix chunk_overlap (current_chunk st))
             as [k Hk].
           rewrite Hk. apply elem_of_app. by right.
    + intros _. by destruct (slice_last chunk_overlap (current_chunk st)).
    + destruct closed as [|a closed]; simpl.
      * rewrite app_nil_l, strip_overlaps_single in Hstrip.
        rewrite Hstrip in *. destruct consumed as [|w1 consumed]; simpl.
        -- simpl in Hlen. split; [intros _; lia|done].
        -- split; [done|]. intros Hlong.
           destruct Hfirst as [|Hsum]; [done|]. simpl in Hsum.
           pose proof (sum_lengths_nonneg consumed). lia.
      * rewrite first_too_long_snoc; [done|].
        intros ->. simpl in Hcount. lia.
    + rewrite !length_app. simpl. lia.
Qed.

Lemma split_loop_cover ws consumed st closed :
  Forall word_ok ws →
  cover_inv chunk_size chunk_overlap consumed st closed →
  ∃ closed',
    cover_inv chunk_size chunk_overlap (consumed ++ ws)
      (split_loop chunk_size chunk_overlap ws st) closed'.
Proof.
  intros Hws. revert consumed st closed.
  induction Hws as [|w ws Hw Hws IH]; intros consumed st closed Hinv.
  - exists closed. by rewrite app_nil_r.
  - rewrite split_loop_cons.
    destruct (split_step_cover consumed st closed w Hw Hinv)
      as [closed' Hinv'].
    destruct (IH _ _ _ Hinv') as [closed'' Hinv''].
    exists closed''. by rewrite <- app_assoc in Hinv''.
Qed.

End Cover.

(** The chunks of [split_text] as lists of words, with what the loop
    maintained about them. *)
Lemma split_text_cover chunk_size chunk_overlap text :
  ∃ wss,
    split_text text chunk_size chunk_overlap = join (pystr " ") <$> wss
    ∧ Forall (Forall word_ok) wss
    ∧ adjacent (closes chunk_size chunk_overlap) wss
    ∧ strip_overlaps chunk_overlap [] wss = split text
    ∧ (∀ ws, ws ∈ wss → ws ⊆ split text)
    ∧ (∀ a, head wss = Some a →
         a = [] ↔ first_too_long chunk_size (split text))
    ∧ (length wss ≤ length (split text) + 1)%nat
    ∧ (wss = [] ↔ split text = []).
Proof.
  destruct (split_loop_cover chunk_size chunk_overlap (split text) [] _ _
              (split_words text) (cover_inv_init chunk_size chunk_overlap))
    as [closed [Hc Hws Hcur Hlen Hadj Hlast Hstrip Hsub Hne Hfirst Hcount]].
  simpl in *. unfold split_text.
  destruct (current_chunk _) as [|w cur] eqn:E.
  - destruct (split text) as [|w1 ws1] eqn:Hsplit; [|by destruct Hne].
    destruct closed; [|simpl in Hcount; lia].
    exists []. repeat split; try done.
    + intros ws Hin. by apply elem_of_nil in Hin.
    + simpl. lia.
  - exists (closed ++ [w :: cur]). rewrite fmap_app, Hc.
    split; [done|]. split; [|split; [|split; [|split; [|split; [|split]]]]].
    + apply Forall_app. split; [done|]. by constructor.
    + by apply adjacent_snoc.
    + done.
    + done.
    + intros a Ha. destruct closed as [|a' closed]; simpl in Ha.
      * injection Ha as <-. rewrite app_nil_l, strip_overlaps_single in Hstrip.
        rewrite <- Hstrip. simpl. split; [done|]. intros Hlong.
        destruct Hfirst as [|Hsum]; [done|]. simpl in Hsum.
        pose proof (sum_lengths_nonneg cur). lia.
      * by injection Ha as <-.
    + rewrite length_app. simpl. lia.
    + split; [by destruct closed|]. intros Hnil.
      assert (w ∈ split text) as Hw.
      { eapply (Hsub (w :: cur)); [|by left]. apply elem_of_app. right.
        by left. }
      rewrite Hnil in Hw. by apply elem_of_nil in Hw.
Qed.

Lemma split_text_nil chunk_size chunk_overlap text :
  split_text text chunk_size chunk_overlap = [] ↔ split text = [].
Proof.
  destruct (split_text_cover chunk_size chunk_overlap text)
    as (wss & -> & _ & _ & _ & _ & _ & _ & Hnil).
  rewrite <- Hnil. split; [|by intros ->]. by destruct wss.
Qed.

(** [split_text] returns no chunk exactly when the text holds no word,
    whatever the sizes. *)
Theorem split_text_nil_iff text chunk_size chunk_overlap :
  split_text text chunk_size chunk_overlap = [] ↔ split text = [].
Proof.
  destruct (split_text_cover chunk_size chunk_overlap text)
    as (wss & -> & _ & _ & _ & _ & _ & _ & Hnil).
  rewrite <- Hnil. split.
  - intros Hmap. by destruct wss.
  - by intros ->.
Qed.

(** No word is lost and none is repeated beyond the overlaps: the first
    chunk, followed by what each other chunk holds after the overlap it
    took from its predecessor, is the sequence of the words of the text. *)
Theorem split_text_covers text chunk_size chunk_overlap :
  strip_overlaps chunk_overlap []
    (split <$> split_text text chunk_size chunk_overlap)
  = split text.
Proof.
  destruct (split_text_cover chunk_size chunk_overlap text)
    as (wss & -> & Hws & _ & Hstrip & _).
  by rewrite fmap_split_join.
Qed.

(** Every chunk is its own words joined by single spaces, and every word
    of a chunk is a word of the text. *)
Theorem split_text_chunk_words text chunk_size chunk_overlap c :
  c ∈ split_text text chunk_size chunk_overlap →
  join (pystr " ") (split c) = c ∧ ∀ w, w ∈ split c → w ∈ split text.
Proof.
  destruct (split_text_cover chunk_size chunk_overlap text)
    as (wss & -> & Hws & _ & _ & Hsub & _).
  intros Hc. apply list_elem_of_fmap in Hc as (ws & -> & Hin).
  rewrite split_join by exact (proj1 (Forall_forall _ _) Hws ws Hin).
  split; [done|]. intros w Hw. by eapply Hsub.
Qed.

Lemma split_text_chunk_words_witness :
  join (pystr " ") (split (pystr "bb cc")) = pystr "bb cc"
  ∧ ∀ w, w ∈ split (pystr "bb cc") → w ∈ split (pystr "aa  bb cc dd").
Proof.
  apply (split_text_chunk_words (pystr "aa  bb cc dd") 6 1 (pystr "bb cc")).
  vm_compute. right. by left.
Defined.

(** Only the first chunk can be the empty string, and it is exactly when
    the first word is at least as long as the budget. *)
Theorem split_text_empty_chunk text chunk_size chunk_overlap :
  (∀ j c,
     split_text text chunk_size chunk_overlap !! S j = Some c → c ≠ [])
  ∧ (∀ c,
       split_text text chunk_size chunk_overlap !! 0%nat = Some c →
       c = [] ↔
       ∃ w ws, split text = w :: ws ∧ chunk_size ≤ Z.of_nat (length w)).
Proof.
  destruct (split_text_cover chunk_size chunk_overlap text)
    as (wss & -> & Hws & Hadj & _ & _ & Hfirst & _).
  split.
  - intros j c Hc. rewrite list_lookup_fmap in Hc.
    destruct (wss !! S j) as [b|] eqn:Hb; [|done].
    simpl in Hc. injection Hc as <-.
    destruct (lookup_lt_is_Some_2 wss j) as [a Ha];
      [apply lookup_lt_Some in Hb; lia|].
    destruct (Hadj j a b Ha Hb) as (w & rest & -> & _).
    intros Hnil. apply join_nil in Hnil; [|by eapply Forall_lookup_1].
    by destruct (slice_last chunk_overlap a).
  - intros c Hc. rewrite list_lookup_fmap in Hc.
    destruct (wss !! 0%nat) as [a|] eqn:Ha; [|done].
    simpl in Hc. injection Hc as <-.
    assert (head wss = Some a) as Hhd by (by destruct wss).
    assert (join (pystr " ") a = [] ↔ a = []) as ->.
    { split; [|by intros ->]. apply join_nil. by eapply Forall_lookup_1. }
    rewrite (Hfirst a Hhd). unfold first_too_long.
    destruct (split text) as [|w ws].
    + split; [done|]. by intros (w & ws & [=] & _).
    + split; [by exists w, ws|]. by intros (w' & ws' & [= <- <-] & ?).
Qed.

(** At most one chunk is closed per word, and one is flushed at the
    end. *)
Theorem split_text_length_le text chunk_size chunk_overlap :
  (length (split_text text chunk_size chunk_overlap)
   ≤ length (split text) + 1)%nat.
Proof.
  destruct (split_text_cover chunk_size chunk_overlap text)
    as (wss & -> & _ & _ & _ & _ & _ & Hlen & _).
  by rewrite length_fmap.
Qed.



(** An overlap of zero does not switch the overlap off: [l[-0:]] is all of
    [l], so each chunk starts with all the words of its predecessor.  A
    negative overlap leaves out that many of the first words of the
    predecessor. *)
Theorem split_text_overlap_not_positive text chunk_size chunk_overlap
    j c c' :
  chunk_overlap ≤ 0 →
  split_text text chunk_size chunk_overlap !! j = Some c →
  split_text text chunk_size chunk_overlap !! S j = Some c' →
  drop (Z.to_nat (- chunk_overlap)) (split c) `prefix_of` split c'
  ∧ (chunk_overlap = 0 → split c `prefix_of` split c').
Proof.
  intros Hle Hj HSj.
  destruct (split_text_cover chunk_size chunk_overlap text)
    as (wss & E & Hws & Hadj & _).
  rewrite E, list_lookup_fmap in Hj, HSj.
  destruct (wss !! j) as [a|] eqn:Ha; [|done].
  destruct (wss !! S j) as [b|] eqn:Hb; [|done].
  simpl in Hj, HSj. injection Hj as <-. injection HSj as <-.
  rewrite !split_join by (eapply Forall_lookup_1; eauto).
  destruct (Hadj j a b Ha Hb) as (w & rest & -> & _).
  unfold slice_last. destruct (Z.ltb_spec 0 chunk_overlap); [lia|].
  split; [by apply prefix_app_r|]. intros ->. simpl. by apply prefix_app_r.
Qed.

Lemma split_text_overlap_not_positive_witness :
  split (pystr "aa bb") `prefix_of` split (pystr "aa bb cc").
Proof.
  refine (proj2 (split_text_overlap_not_positive (pystr "aa bb cc dd") 6 0 0
                   (pystr "aa bb") (pystr "aa bb cc") _ _ _) eq_refl).
  - vm_compute. discriminate.
  - vm_compute. reflexivity.
  - vm_compute. reflexivity.
Defined.

(** * Properties of the text extraction *)

Section ExtractFacts.

Lemma split_from_app_space word a c b :
  isspace c = true →
  split_from word (a ++ c :: b) = split_from word a ++ split b.
Proof.
  intros Hc. revert word. induction a as [|x a IH]; intros word; simpl.
  - rewrite Hc. by destruct word.
  - destruct (isspace x).
    + destruct word; simpl; by rewrite IH.
    + apply IH.
Qed.

(** Joined by newlines, the parts keep their words apart. *)
Lemma split_join_newline parts :
  split (join newline parts) = mjoin (split <$> parts).
Proof.
  induction parts as [|part parts IH]; [done|].
  destruct parts as [|part' parts].
  - simpl. by rewrite app_nil_r.
  - rewrite join_cons_cons. unfold split at 1.
    change (newline ++ ?t) with (10%N :: t).
    rewrite (split_from_app_space [] part 10%N) by done.
    by rewrite IH.
Qed.

Lemma endswith_last s suffix x :
  endswith s suffix = true → last suffix = Some x → last s = Some x.
Proof.
  unfold endswith. intros Hs Hx. apply bool_decide_eq_true in Hs as [k ->].
  by rewrite last_app, Hx.
Qed.

Lemma endswith_txt file_path :
  endswith file_path (pystr ".txt") = true →
  endswith file_path (pystr ".pdf") = false
  ∧ endswith file_path (pystr ".docx") = false.
Proof.
  intros Htxt. pose proof (endswith_last _ _ 116%N Htxt eq_refl) as Hlast.
  split.
  - destruct (endswith file_path (pystr ".pdf")) eqn:E; [|done].
    pose proof (endswith_last _ _ 102%N E eq_refl). congruence.
  - destruct (endswith file_path (pystr ".docx")) eqn:E; [|done].
    pose proof (endswith_last _ _ 120%N E eq_refl). congruence.
Qed.

End ExtractFacts.

(** For a file that is not read as plain text, the extracted text is the
    parts its reader returned (pages, paragraphs or elements) joined by
    newlines, so its words are the words of the parts in order: no word
    of the text runs over two parts. *)
Theorem extract_text_words fs file_path text :
  extract_text_from_file fs file_path = Ok text →
  endswith file_path (pystr ".txt") = false →
  ∃ parts,
    (if endswith file_path (pystr ".pdf") then PdfReader fs file_path
     else if endswith file_path (pystr ".docx") then
       DocxDocument fs file_path
     else partition fs file_path) = Ok parts
    ∧ text = join newline parts
    ∧ split text = mjoin (split <$> parts).
Proof.
  unfold extract_text_from_file. intros Hx Htxt. rewrite Htxt in Hx.
  destruct (endswith file_path (pystr ".pdf")).
  - destruct (PdfReader fs file_path) as [parts|]; [|done].
    injection Hx as <-. exists parts. by rewrite split_join_newline.
  - destruct (endswith file_path (pystr ".docx")).
    + destruct (DocxDocument fs file_path) as [parts|]; [|done].
      injection Hx as <-. exists parts. by rewrite split_join_newline.
    + destruct (partition fs file_path) as [parts|]; [|done].
      injection Hx as <-. exists parts. by rewrite split_join_newline.
Qed.

(** A file whose name ends in [.txt] is read as it is, by the text reader
    alone; and whatever the name, [extract_text_from_file] raises only
    what one of the readers raised for that file. *)
Theorem extract_text_dispatch fs file_path :
  (endswith file_path (pystr ".txt") = true →
   extract_text_from_file fs file_path = read_text fs file_path)
  ∧ (∀ e, extract_text_from_file fs file_path = Raise e →
       PdfReader fs file_path = Raise e
       ∨ DocxDocument fs file_path = Raise e
       ∨ read_text fs file_path = Raise e
       ∨ partition fs file_path = Raise e).
Proof.
  unfold extract_text_from_file. split.
  - intros Htxt. destruct (endswith_txt _ Htxt) as [-> ->]. by rewrite Htxt.
  - intros e.
    destruct (endswith file_path (pystr ".pdf")).
    { destruct (PdfReader fs file_path); [done|]. intros [= ->]. by left. }
    destruct (endswith file_path (pystr ".docx")).
    { destruct (DocxDocument fs file_path); [done|]. intros [= ->].
      right. by left. }
    destruct (endswith file_path (pystr ".txt")).
    { intros ->. right. right. by left. }
    destruct (partition fs file_path); [done|]. intros [= ->].
    right. right. by right.
Qed.

Lemma extract_text_words_witness :
  ∃ parts,
    PdfReader DemoFiles.fs (pystr "uploads/1_slides.pdf") = Ok parts
    ∧ split (join newline parts)
      = [pystr "Induction"; pystr "on"; pystr "lists"; pystr "and";
         pystr "on"; pystr "trees"].
Proof.
  destruct (extract_text_words DemoFiles.fs (pystr "uploads/1_slides.pdf")
              (join newline [pystr "Induction on lists";
                             pystr "and on  trees"]))
    as (parts & Hparts & Htext & Hsplit).
  - vm_compute. reflexivity.
  - vm_compute. reflexivity.
  - exists parts. split; [exact Hparts|].
    vm_compute in Hparts. injection Hparts as <-. vm_compute. reflexivity.
Defined.

(** * Further properties of the ingestion *)

Section IngestFacts.

Lemma doc_id_missing_key file_path (metadata : gmap string value) i :
  metadata !! "user_id" = None ∨ metadata !! "semester" = None
  ∨ metadata !! "subject" = None →
  ∃ key, doc_id file_path metadata i = Raise (KeyError key).
Proof.
  unfold doc_id, getitem. intros [Hk|[Hk|Hk]].
  - rewrite Hk. by eexists.
  - destruct (metadata !! "user_id"); [|by eexists]. rewrite Hk. by eexists.
  - destruct (metadata !! "user_id"); [|by eexists].
    destruct (metadata !! "semester"); [|by eexists]. rewrite Hk.
    by eexists.
Qed.

(** The identifiers of two calls that build every identifier alike agree
    as far as the shorter call goes. *)
Lemma ingest_ids_determined file_path file_path'
    (metadata metadata' : gmap string value) chunks chunks' b b' :
  (∀ i, doc_id file_path metadata i = doc_id file_path' metadata' i) →
  ingest_loop file_path metadata 0 chunks (Batch [] [] []) = Ok b →
  ingest_loop file_path' metadata' 0 chunks' (Batch [] [] []) = Ok b' →
  (length chunks ≤ length chunks')%nat →
  ids b `prefix_of` ids b'.
Proof.
  intros Hid Hb Hb' Hlen.
  destruct (ingest_loop_ok _ _ _ _ _ _ Hb) as (_ & _ & new & E & Hn & Hnew).
  destruct (ingest_loop_ok _ _ _ _ _ _ Hb')
    as (_ & _ & new' & E' & Hn' & Hnew').
  simpl in E, E'. subst new new'.
  assert (ids b = take (length chunks) (ids b')) as ->;
    [|apply prefix_take].
  apply list_eq. intros i. destruct (decide (i < length chunks)%nat).
  - rewrite lookup_take_lt by done.
    destruct (lookup_lt_is_Some_2 (ids b) i) as [id Hi]; [lia|].
    destruct (lookup_lt_is_Some_2 (ids b') i) as [id' Hi']; [lia|].
    rewrite Hi, Hi'. apply Hnew in Hi. apply Hnew' in Hi'. simpl in Hi, Hi'.
    rewrite Hid in Hi. congruence.
  - rewrite lookup_take_ge by lia. apply lookup_ge_None_2. lia.
Qed.

Lemma basename_no_slash acc b :
  47%N ∉ b →
  fold_left (λ acc c, if (c =? 47)%N then [] else acc ++ [c]) b acc
  = acc ++ b.
Proof.
  revert acc. induction b as [|c b IH]; intros acc Hb; simpl.
  - by rewrite app_nil_r.
  - apply not_elem_of_cons in Hb as [Hc Hb].
    destruct (N.eqb_spec c 47); [done|].
    rewrite IH by done. by rewrite <- app_assoc.
Qed.

Lemma basename_app_slash a b : 47%N ∉ b → basename (a ++ 47%N :: b) = b.
Proof.
  intros Hb. unfold basename. rewrite fold_left_app. simpl.
  by rewrite basename_no_slash.
Qed.

Lemma str_of_int_no_slash z : 47%N ∉ str_of_int z.
Proof.
  unfold str_of_int. destruct (Z.to_int z) as [d|d].
  - apply digits_not_elem. lia.
  - apply not_elem_of_cons. split; [done|]. apply digits_not_elem. lia.
Qed.

Lemma basename_file_location current_user_id filename :
  47%N ∉ filename →
  basename (Main.file_location current_user_id filename)
  = str_of_int current_user_id ++ pystr "_" ++ filename.
Proof.
  intros Hf. unfold Main.file_location.
  change (pystr "uploads/" ++ ?r) with (pystr "uploads" ++ 47%N :: r).
  apply basename_app_slash. apply not_elem_of_app. split.
  - apply str_of_int_no_slash.
  - change (pystr "_" ++ filename) with (95%N :: filename).
    by apply not_elem_of_cons.
Qed.

End IngestFacts.

Ltac unfold_monad :=
  unfold try_except, mbind, M_bind, mret, M_ret, lift, reads.
Ltac unfold_monad_in H :=
  unfold try_except, mbind, M_bind, mret, M_ret, lift, reads in H.

Section IngestMethodFacts.

Context `{VectorStore store}.
Variable fs : FileReaders.

(** A metadata dictionary without one of the keys of the identifier: as
    soon as the text holds a word, [ingest_document] returns [False]
    before the store is called, so the store is left as it was. *)
Theorem ingest_document_missing_key file_path metadata (vs : store) text :
  extract_text_from_file fs file_path = Ok text →
  split text ≠ [] →
  metadata !! "user_id" = None ∨ metadata !! "semester" = None
  ∨ metadata !! "subject" = None →
  ingest_document fs file_path metadata vs = (Ok false, vs).
Proof.
  intros Hx Hwords Hkey.
  unfold ingest_document, ingest_body. unfold_monad. rewrite Hx.
  destruct (split_text text default_chunk_size default_chunk_overlap)
    as [|chunk chunks] eqn:Hchunks.
  - by apply split_text_nil in Hchunks.
  - simpl. destruct (doc_id_missing_key file_path metadata 0 Hkey) as [k ->].
    done.
Qed.

(** What an upload sends to the store.  For a file name without slash the
    ingestion of [upload_document] cannot fail on a key: when the
    extraction raises it returns [False] and leaves the store alone;
    otherwise it calls [add_texts] once, with the chunks of the text, the
    metadata once per chunk and the identifiers [upload_ids], and returns
    [True] exactly when that call returns. *)
Theorem upload_ingest_result current_user_id filename semester subject
    (vs : store) :
  47%N ∉ filename →
  Main.upload_ingest fs current_user_id filename semester subject vs
  = match extract_text_from_file fs
            (Main.file_location current_user_id filename) with
    | Raise e => (Ok false, vs)
    | Ok text =>
        let chunks :=
          split_text text default_chunk_size default_chunk_overlap in
        match add_texts chunks
                (replicate (length chunks)
                   (Main.upload_metadata current_user_id semester subject
                      filename))
                (upload_ids current_user_id semester subject filename
                   (length chunks)) vs with
        | (Ok _, vs') => (Ok true, vs')
        | (Raise e, vs') => (Ok false, vs')
        end
    end.
Proof.
  intros Hf. unfold Main.upload_ingest, ingest_document, ingest_body.
  unfold_monad.
  destruct (extract_text_from_file fs _) as [text|e]; [|done].
  set (chunks := split_text text default_chunk_size default_chunk_overlap).
  set (metadata := Main.upload_metadata current_user_id semester subject
                     filename).
  destruct (ingest_loop_total (Main.file_location current_user_id filename)
              metadata 0 chunks (Batch [] [] [])) as [b Hb];
    [by eexists..|].
  rewrite Hb.
  destruct (ingest_loop_ok _ _ _ _ _ _ Hb) as (Hd & Hm & new & E & Hn & Hnew).
  simpl in Hd, Hm, E. subst new.
  assert (ids b = upload_ids current_user_id semester subject filename
                    (length chunks)) as Hids.
  { apply list_eq. intros i. unfold upload_ids. rewrite list_lookup_fmap.
    destruct (decide (i < length chunks)%nat).
    - destruct (lookup_lt_is_Some_2 (ids b) i) as [id Hi]; [lia|].
      rewrite Hi, lookup_seq_lt by done. simpl. f_equal.
      apply Hnew in Hi. simpl in Hi.
      rewrite (doc_id_chunk_id _ _ (VInt current_user_id) (VInt semester)
                 (VStr subject)) in Hi by done.
      injection Hi as <-. unfold chunk_id.
      rewrite basename_file_location by done.
      rewrite !join_cons_cons. simpl format. by rewrite <- !app_assoc.
    - rewrite lookup_seq_ge by lia. apply lookup_ge_None_2. lia. }
  rewrite Hd, Hm, Hids. by destruct (add_texts _ _ _ vs) as [[u|e] vs'].
Qed.

End IngestMethodFacts.

(** The identifiers do not depend on what is ingested: two calls whose
    metadata agree on the user id, the semester and the subject, for files
    of the same basename, give the same identifiers as far as the shorter
    one goes, whatever the chunks, the directory and the other entries of
    the metadata.  Ingesting a new version of a file reuses the
    identifiers of the old one. *)
Theorem ingest_ids_reused file_path file_path'
    (metadata metadata' : gmap string value) chunks chunks' b b' :
  metadata !! "user_id" = metadata' !! "user_id" →
  metadata !! "semester" = metadata' !! "semester" →
  metadata !! "subject" = metadata' !! "subject" →
  basename file_path = basename file_path' →
  ingest_loop file_path metadata 0 chunks (Batch [] [] []) = Ok b →
  ingest_loop file_path' metadata' 0 chunks' (Batch [] [] []) = Ok b' →
  (length chunks ≤ length chunks')%nat →
  ids b `prefix_of` ids b'.
Proof.
  intros Hu Hs Hsub Hbase. apply ingest_ids_determined.
  intros i. unfold doc_id, getitem. by rewrite Hu, Hs, Hsub, Hbase.
Qed.

Lemma ingest_ids_reused_witness :
  [pystr "1_1_General_notes.txt_0"]
  `prefix_of` [pystr "1_1_General_notes.txt_0";
               pystr "1_1_General_notes.txt_1"].
Proof.
  apply (ingest_ids_reused (pystr "old/notes.txt") (pystr "new/notes.txt")
           (Demo.upload_metadata 1 1 "General" "notes.txt")
           (Demo.upload_metadata 1 1 "General" "notes, second version")
           [pystr "one chunk"] [pystr "first chunk"; pystr "second chunk"]
           (Batch [pystr "one chunk"]
              [Demo.upload_metadata 1 1 "General" "notes.txt"]
              [pystr "1_1_General_notes.txt_0"])
           (Batch [pystr "first chunk"; pystr "second chunk"]
              (replicate 2
                 (Demo.upload_metadata 1 1 "General" "notes, second version"))
              [pystr "1_1_General_notes.txt_0";
               pystr "1_1_General_notes.txt_1"])).
  all: vm_compute; first [reflexivity | lia].
Defined.

(** The underscore is not reserved for the identifier: a subject [x_y]
    with a file named [z] and a subject [x] with a file named [y_z] get
    the same identifiers, for the same owner and semester. *)
Theorem ingest_ids_ambiguous file_path file_path'
    (metadata metadata' : gmap string value) x y chunks chunks' b b' :
  metadata !! "user_id" = metadata' !! "user_id" →
  metadata !! "semester" = metadata' !! "semester" →
  metadata !! "subject" = Some (VStr (x ++ pystr "_" ++ y)) →
  metadata' !! "subject" = Some (VStr x) →
  basename file_path' = y ++ pystr "_" ++ basename file_path →
  ingest_loop file_path metadata 0 chunks (Batch [] [] []) = Ok b →
  ingest_loop file_path' metadata' 0 chunks' (Batch [] [] []) = Ok b' →
  length chunks = length chunks' →
  ids b = ids b'.
Proof.
  intros Hu Hs Hsub Hsub' Hbase Hb Hb' Hlen.
  apply prefix_length_eq.
  - eapply ingest_ids_determined; [|exact Hb|exact Hb'|lia].
    intros i. unfold doc_id, getitem.
    rewrite Hu, Hs, Hsub, Hsub', Hbase.
    destruct (metadata' !! "user_id"); [|done].
    destruct (metadata' !! "semester"); [|done].
    simpl format. by rewrite <- !app_assoc.
  - destruct (ingest_loop_ok _ _ _ _ _ _ Hb) as (_ & _ & new & E & Hn & _).
    destruct (ingest_loop_ok _ _ _ _ _ _ Hb')
      as (_ & _ & new' & E' & Hn' & _).
    simpl in E, E'. subst. lia.
Qed.

Lemma ingest_ids_ambiguous_witness :
  [pystr "1_1_linear_algebra_1_notes.txt_0"]
  = [pystr "1_1_linear_algebra_1_notes.txt_0"].
Proof.
  apply (ingest_ids_ambiguous
           (pystr "uploads/1_notes.txt") (pystr "uploads/algebra_1_notes.txt")
           (Demo.upload_metadata 1 1 "linear_algebra" "notes.txt")
           (Demo.upload_metadata 1 1 "linear" "algebra_1_notes.txt")
           (pystr "linear") (pystr "algebra")
           [pystr "a chunk"] [pystr "another chunk"]
           (Batch [pystr "a chunk"]
              [Demo.upload_metadata 1 1 "linear_algebra" "notes.txt"]
              [pystr "1_1_linear_algebra_1_notes.txt_0"])
           (Batch [pystr "another chunk"]
              [Demo.upload_metadata 1 1 "linear" "algebra_1_notes.txt"]
              [pystr "1_1_linear_algebra_1_notes.txt_0"])).
  all: vm_compute; reflexivity.
Defined.

Lemma ingest_document_missing_key_witness :
  ingest_document Demo.fs (pystr "uploads/1_notes.txt")
    {[ "user_id" := VInt 1; "title" := VStr (pystr "notes.txt") ]}
    Demo.empty_store
  = (Ok false, Demo.empty_store).
Proof.
  apply (ingest_document_missing_key Demo.fs (pystr "uploads/1_notes.txt")
           {[ "user_id" := VInt 1; "title" := VStr (pystr "notes.txt") ]}
           Demo.empty_store (pystr "Rocq checks proofs")).
  - vm_compute. reflexivity.
  - vm_compute. discriminate.
  - right. left. vm_compute. reflexivity.
Defined.

Lemma upload_ingest_result_witness :
  Main.upload_ingest Demo.fs 1 (pystr "notes.txt") 1 (pystr "General")
    Demo.empty_store
  = (Ok true,
     RefStore.Build
       {[ pystr "1_1_General_1_notes.txt_0" :=
            {| page_content := pystr "Rocq checks proofs";
               metadata :=
                 Main.upload_metadata 1 1 (pystr "General")
                   (pystr "notes.txt") |} ]}
       None true).
Proof.
  etrans.
  - apply (upload_ingest_result Demo.fs 1 (pystr "notes.txt") 1
             (pystr "General") Demo.empty_store).
    vm_compute. intros Hin. by repeat (inversion Hin as [|? ? ? Hin']; subst;
      clear Hin; rename Hin' into Hin).
  - vm_compute. reflexivity.
Defined.

(** * Further properties of the query *)

Section QueryFacts.

Lemma query_filter_semester user_id s subject :
  s ≠ 0 →
  query_filter user_id (Some s) subject !! "semester" = Some (VInt s).
Proof.
  intros Hs. unfold query_filter. destruct (Z.eqb_spec s 0); [done|].
  destruct subject as [[|c sub]|]; by simplify_map_eq.
Qed.

Lemma query_filter_subject user_id semester sub :
  sub ≠ [] →
  query_filter user_id semester (Some sub) !! "subject" = Some (VStr sub).
Proof.
  intros Hs. unfold query_filter. destruct sub as [|c sub]; [done|].
  destruct semester as [s|]; try destruct (Z.eqb_spec s 0);
    by simplify_map_eq.
Qed.

Lemma titles_ok docs :
  Forall (λ d, is_Some (metadata d !! "title")) docs →
  ∃ ts, titles docs = Ok ts
    ∧ ∀ t, t ∈ ts ↔ ∃ d, d ∈ docs ∧ metadata d !! "title" = Some t.
Proof.
  induction 1 as [|d docs [t Ht] _ (ts & Hts & Hin)]; simpl.
  - exists []. split; [done|]. intros t. split.
    + intros Hx. by apply elem_of_nil in Hx.
    + intros (d & Hd & _). by apply elem_of_nil in Hd.
  - unfold getitem. rewrite Ht, Hts. exists (t :: ts). split; [done|].
    intros t'. rewrite elem_of_cons, Hin. split.
    + intros [->|(d' & Hd' & Ht')].
      * exists d. split; [by left|done].
      * exists d'. split; [by right|done].
    + intros (d' & Hd' & Ht'). apply elem_of_cons in Hd' as [->|Hd'].
      * left. congruence.
      * right. by exists d'.
Qed.

Lemma titles_missing docs d :
  d ∈ docs → metadata d !! "title" = None →
  ∃ e, titles docs = Raise e.
Proof.
  intros Hd Hnone. induction docs as [|d' docs IH]; simpl.
  - by apply elem_of_nil in Hd.
  - unfold getitem. apply elem_of_cons in Hd as [<-|Hd].
    + rewrite Hnone. by eexists.
    + destruct (metadata d' !! "title"); [|by eexists].
      destruct (IH Hd) as [e ->]. by eexists.
Qed.

End QueryFacts.

Section QueryMethodFacts.

Context `{VectorStore store}.
Variable llm : str → outcome str.

(** The sources of a response are titles of retrieved chunks. *)
Lemma query_sources_retrieved question user_id semester subject
    (vs : store) r vs' t :
  query llm question user_id semester subject vs = (Ok r, vs') →
  t ∈ sources r →
  ∃ docs d,
    similarity_search vs question (query_filter user_id semester subject) 4
    = Ok docs
    ∧ d ∈ docs ∧ metadata d !! "title" = Some t.
Proof.
  intros Hq Ht. unfold query, query_body, qa_chain in Hq.
  unfold_monad_in Hq.
  destruct (similarity_search vs question _ 4) as [docs|e] eqn:Hs;
    [|injection Hq as <- _; by apply elem_of_nil in Ht].
  destruct (llm _) as [result|e];
    [|injection Hq as <- _; by apply elem_of_nil in Ht].
  simpl in Hq. destruct (titles docs) as [ts|e] eqn:Hts;
    [|injection Hq as <- _; by apply elem_of_nil in Ht].
  injection Hq as <- _. simpl in Ht. rewrite elem_of_remove_dups in Ht.
  destruct (titles_elem docs ts t Hts Ht) as (d & Hd & Htitle).
  by exists docs, d.
Qed.

(** When retrieval and generation return and every retrieved chunk has a
    title, [query] returns the answer of the model, and its sources are
    the titles of the retrieved chunks, each once. *)
Theorem query_success question user_id semester subject (vs : store)
    docs a :
  similarity_search vs question (query_filter user_id semester subject) 4
  = Ok docs →
  llm (prompt_template (join (newline ++ newline) (page_content <$> docs))
         question) = Ok a →
  Forall (λ d, is_Some (metadata d !! "title")) docs →
  ∃ r, query llm question user_id semester subject vs = (Ok r, vs)
    ∧ answer r = a
    ∧ NoDup (sources r)
    ∧ ∀ t, t ∈ sources r ↔ ∃ d, d ∈ docs ∧ metadata d !! "title" = Some t.
Proof.
  intros Hs Hllm Htitles. destruct (titles_ok docs Htitles) as (ts & Hts & Hin).
  unfold query, query_body, qa_chain. unfold_monad.
  rewrite Hs, Hllm. simpl. rewrite Hts. eexists. split; [done|]. simpl.
  split; [done|]. split; [apply NoDup_remove_dups|].
  intros t. by rewrite elem_of_remove_dups.
Qed.

(** One retrieved chunk without a title is enough for the fixed sentence:
    the answer of the model, if there was one, is dropped. *)
Theorem query_missing_title question user_id semester subject (vs : store)
    docs d :
  similarity_search vs question (query_filter user_id semester subject) 4
  = Ok docs →
  d ∈ docs →
  metadata d !! "title" = None →
  query llm question user_id semester subject vs
  = (Ok {| answer := fallback_answer; sources := [] |}, vs).
Proof.
  intros Hs Hd Hnone. destruct (titles_missing docs d Hd Hnone) as [e He].
  unfold query, query_body, qa_chain. unfold_monad. rewrite Hs.
  destruct (llm _); [|done]. simpl. by rewrite He.
Qed.

(** A semester that is given and not zero, and a subject that is given
    and not empty, restrict the sources as the owner does: every source is
    the title of a stored chunk of that semester and that subject. *)
Theorem query_scope question user_id semester subject (vs : store) r vs' t :
  query llm question user_id semester subject vs = (Ok r, vs') →
  t ∈ sources r →
  ∃ id d,
    collection vs !! id = Some d
    ∧ metadata d !! "title" = Some t
    ∧ (∀ s, semester = Some s → s ≠ 0 →
         metadata d !! "semester" = Some (VInt s))
    ∧ (∀ sub, subject = Some sub → sub ≠ [] →
         metadata d !! "subject" = Some (VStr sub)).
Proof.
  intros Hq Ht.
  destruct (query_sources_retrieved _ _ _ _ _ _ _ _ Hq Ht)
    as (docs & d & Hs & Hd & Htitle).
  destruct (similarity_search_filtered _ _ _ _ _ Hs d Hd) as [[id Hid] Hsub].
  exists id, d. split; [done|]. split; [done|]. split.
  - intros s -> Hne. eapply map_subseteq_spec; [exact Hsub|].
    by apply query_filter_semester.
  - intros sub -> Hne. eapply map_subseteq_spec; [exact Hsub|].
    by apply query_filter_subject.
Qed.

End QueryMethodFacts.

Lemma query_success_witness :
  ∃ r, query Demo.llm (pystr "What does Rocq check?") 1 None None
         Demo.two_owners = (Ok r, Demo.two_owners)
    ∧ answer r = pystr "I don't know."
    ∧ NoDup (sources r).
Proof.
  destruct (query_success Demo.llm (pystr "What does Rocq check?") 1 None None
              Demo.two_owners
              [{| page_content := pystr "Rocq checks proofs";
                  metadata :=
                    Demo.upload_metadata 1 1 "General" "notes.txt" |}]
              (pystr "I don't know."))
    as (r & Hq & Ha & Hnd & _).
  - vm_compute. reflexivity.
  - unfold Demo.llm. reflexivity.
  - constructor; [|constructor]. eexists. vm_compute. reflexivity.
  - exists r. split; [exact Hq|]. split; [exact Ha|exact Hnd].
Defined.

Lemma query_missing_title_witness :
  query Demo.llm (pystr "What is in the draft?") 1 None None untitled_store
  = (Ok {| answer := fallback_answer; sources := [] |}, untitled_store).
Proof.
  apply (query_missing_title Demo.llm (pystr "What is in the draft?") 1 None
           None untitled_store
           [{| page_content := pystr "a draft";
               metadata := {[ "user_id" := VInt 1 ]} |}]
           {| page_content := pystr "a draft";
              metadata := {[ "user_id" := VInt 1 ]} |}).
  - vm_compute. reflexivity.
  - by left.
  - vm_compute. reflexivity.
Defined.

Lemma query_scope_witness :
  ∃ id d,
    collection Demo.two_owners !! id = Some d
    ∧ metadata d !! "title" = Some (VStr (pystr "notes.txt"))
    ∧ metadata d !! "semester" = Some (VInt 1)
    ∧ metadata d !! "subject" = Some (VStr (pystr "General")).
Proof.
  destruct (query_scope Demo.llm (pystr "What does Rocq check?") 2 (Some 1)
              (Some (pystr "General")) Demo.two_owners
              {| answer := pystr "I don't know.";
                 sources := [VStr (pystr "notes.txt")] |}
              Demo.two_owners (VStr (pystr "notes.txt")))
    as (id & d & Hid & Ht & Hsem & Hsub).
  - vm_compute. reflexivity.
  - by left.
  - exists id, d. split; [done|]. split; [done|]. split.
    + by apply Hsem.
    + by apply Hsub.
Defined.

(** * Properties of the listing of a user's documents *)

Section ListingFacts.

Lemma entry_lookups (title semester subject user_id : value) :
  let e := ({[ "semester" := semester; "subject" := subject;
               "user_id" := user_id ]} : gmap string value)
           ∪ {[ "title" := title ]} in
  e !! "title" = Some title ∧ e !! "semester" = Some semester
  ∧ e !! "subject" = Some subject ∧ e !! "user_id" = Some user_id.
Proof. repeat split; by vm_compute. Qed.

Lemma unique_docs_step_ok unique_docs m :
  listable m →
  ∃ unique_docs',
    unique_docs_step unique_docs m = Ok unique_docs'
    ∧ ((∃ t, m !! "title" = Some t ∧ t ∈ unique_docs.*1)
         ∧ unique_docs' = unique_docs
       ∨ (∃ item, item_of m item ∧ (item.1 ∉ unique_docs.*1)
            ∧ unique_docs' = unique_docs ++ [item])).
Proof.
  intros ([t Ht] & [sem Hsem] & [sub Hsub] & [uid Huid]).
  unfold unique_docs_step, getitem. rewrite Ht.
  destruct (bool_decide (t ∈ unique_docs.*1)) eqn:Hin.
  - apply bool_decide_eq_true in Hin. eexists. split; [done|]. left.
    split; [by exists t|done].
  - apply bool_decide_eq_false in Hin. rewrite Hsem, Hsub, Huid.
    eexists. split; [done|]. right. eexists. split; [|split; [|done]].
    + by exists t, sem, sub, uid.
    + done.
Qed.

Lemma unique_docs_loop_ok ms unique_docs :
  Forall listable ms →
  ∃ unique_docs',
    unique_docs_loop ms unique_docs = Ok unique_docs'
    ∧ (NoDup unique_docs.*1 → NoDup unique_docs'.*1)
    ∧ (∀ item, item ∈ unique_docs' →
         item ∈ unique_docs ∨ ∃ m, m ∈ ms ∧ item_of m item)
    ∧ (∀ t, t ∈ unique_docs.*1 → t ∈ unique_docs'.*1)
    ∧ (∀ m t, m ∈ ms → m !! "title" = Some t → t ∈ unique_docs'.*1).
Proof.
  intros Hms. revert unique_docs.
  induction Hms as [|m ms Hm _ IH]; intros unique_docs; simpl.
  - exists unique_docs. split; [done|]. split; [done|]. split; [by left|].
    split; [done|]. intros m t Hin. by apply elem_of_nil in Hin.
  - destruct (unique_docs_step_ok unique_docs m Hm)
      as (u1 & -> & Hstep).
    destruct (IH u1) as (u2 & -> & Hnd & Hitems & Hkeep & Hall).
    exists u2. split; [done|].
    destruct Hstep as [[(t & Ht & Hin) ->]|(item & Hitem & Hnew & ->)].
    + split; [done|]. split; [|split; [done|]].
      * intros item Hi. destruct (Hitems item Hi) as [?|(m' & Hm' & ?)];
          [by left|]. right. exists m'. split; [by right|done].
      * intros m' t' Hm' Ht'. apply elem_of_cons in Hm' as [->|Hm'].
        -- apply Hkeep. congruence.
        -- by eapply Hall.
    + split; [|split; [|split]].
      * intros Hnd0. apply Hnd. rewrite fmap_app. apply NoDup_app.
        split; [done|]. split; [|apply NoDup_singleton].
        intros t Ht Ht'. apply list_elem_of_singleton in Ht'. by subst.
      * intros item' Hi.
        destruct (Hitems item' Hi) as [Hold|(m' & Hm' & ?)].
        -- apply elem_of_app in Hold as [?|Hold]; [by left|].
           apply list_elem_of_singleton in Hold as ->. right. exists m.
           split; [by left|done].
        -- right. exists m'. split; [by right|done].
      * intros t Ht. apply Hkeep. rewrite fmap_app. apply elem_of_app.
        by left.
      * intros m' t' Hm' Ht'. apply elem_of_cons in Hm' as [->|Hm'].
        -- apply Hkeep. rewrite fmap_app. apply elem_of_app. right.
           destruct Hitem as (t & ? & ? & ? & Ht & _ & _ & _ & ->).
           simpl. apply list_elem_of_singleton. congruence.
        -- by eapply Hall.
Qed.

Lemma unique_docs_loop_untitled ms m unique_docs :
  m ∈ ms → m !! "title" = None →
  ∃ e, unique_docs_loop ms unique_docs = Raise e.
Proof.
  intros Hm Hnone. revert unique_docs.
  induction ms as [|m' ms IH]; intros unique_docs; simpl.
  - by apply elem_of_nil in Hm.
  - apply elem_of_cons in Hm as [<-|Hm].
    + unfold unique_docs_step, getitem. rewrite Hnone. by eexists.
    + destruct (unique_docs_step unique_docs m'); [|by eexists].
      by apply IH.
Qed.

End ListingFacts.

Section ListingMethodFacts.

Context `{CollectionReader store}.

(** [get_user_documents] returns a list, never raises and leaves the
    store as it was.  The list is empty when the read of the collection
    raises, and also when a single chunk of the user has no title. *)
Theorem get_user_documents_never_raises user_id (vs : store) :
  (∃ l, get_user_documents user_id vs = (Ok l, vs))
  ∧ (∀ e, collection_get vs {[ "user_id" := VInt user_id ]} = Raise e →
       get_user_documents user_id vs = (Ok [], vs))
  ∧ (∀ ms m, collection_get vs {[ "user_id" := VInt user_id ]} = Ok ms →
       m ∈ ms → m !! "title" = None →
       get_user_documents user_id vs = (Ok [], vs)).
Proof.
  unfold get_user_documents, get_user_documents_body. unfold_monad.
  split; [|split].
  - destruct (collection_get vs _) as [ms|e]; [|by eexists].
    destruct (unique_docs_loop ms []); by eexists.
  - by intros e ->.
  - intros ms m -> Hm Hnone.
    by destruct (unique_docs_loop_untitled ms m [] Hm Hnone) as [e ->].
Qed.

(** When the chunks of the user all have the four keys, the listing has
    one entry per title: the titles are pairwise distinct, every entry
    carries the user id asked for and the title, semester and subject of
    one stored chunk of that user, and the title of every stored chunk of
    that user is listed. *)
Theorem get_user_documents_listing user_id (vs : store) ms :
  collection_get vs {[ "user_id" := VInt user_id ]} = Ok ms →
  Forall listable ms →
  ∃ l, get_user_documents user_id vs = (Ok l, vs)
    ∧ NoDup ((λ e : gmap string value, e !! "title") <$> l)
    ∧ (∀ e, e ∈ l →
         e !! "user_id" = Some (VInt user_id)
         ∧ ∃ id d, collection vs !! id = Some d
             ∧ metadata d !! "user_id" = Some (VInt user_id)
             ∧ e !! "title" = metadata d !! "title"
             ∧ e !! "semester" = metadata d !! "semester"
             ∧ e !! "subject" = metadata d !! "subject")
    ∧ (∀ id d, collection vs !! id = Some d →
         metadata d !! "user_id" = Some (VInt user_id) →
         ∃ e, e ∈ l ∧ e !! "title" = metadata d !! "title").
Proof.
  intros Hget Hms.
  destruct (unique_docs_loop_ok ms [] Hms)
    as (u & Hloop & Hnd & Hitems & _ & Hall).
  unfold get_user_documents, get_user_documents_body. unfold_monad.
  rewrite Hget, Hloop. eexists. split; [done|].
  assert (∀ item, item ∈ u → ∃ m, m ∈ ms ∧ item_of m item) as Hitems'.
  { intros item Hi. destruct (Hitems item Hi) as [Hnil|?]; [|done].
    by apply elem_of_nil in Hnil. }
  split; [|split].
  - assert ((λ e : gmap string value, e !! "title") <$> documents_of u
            = Some <$> u.*1) as ->.
    { unfold documents_of. rewrite <- !list_fmap_compose.
      apply Forall_fmap_ext_1, Forall_forall. intros item Hi.
      destruct (Hitems' item Hi) as (m & _ & t & s & sub & uid & _ & _ & _ & _ & ->).
      simpl. apply entry_lookups. }
    apply NoDup_fmap; [apply _|]. apply Hnd. constructor.
  - intros e He. unfold documents_of in He.
    apply list_elem_of_fmap in He as (item & -> & Hi).
    destruct (Hitems' item Hi)
      as (m & Hm & t & s & sub & uid & Ht & Hs & Hsub & Huid & ->).
    destruct (collection_get_sound _ _ _ Hget m Hm)
      as (Hfilter & id & d & Hid & <-).
    assert (metadata d !! "user_id" = Some (VInt user_id)) as Hown.
    { eapply map_subseteq_spec; [exact Hfilter|]. apply lookup_singleton_eq. }
    simpl. destruct (entry_lookups t s sub uid) as (Et & Es & Esub & Eu).
    rewrite Et, Es, Esub, Eu. split; [congruence|].
    exists id, d. by rewrite Ht, Hs, Hsub.
  - intros id d Hid Hown.
    assert (metadata d ∈ ms) as Hm.
    { eapply collection_get_complete; [exact Hget|exact Hid|].
      apply map_singleton_subseteq_l. exact Hown. }
    destruct (proj1 (Forall_forall _ _) Hms _ Hm) as ([t Ht] & _).
    pose proof (Hall _ _ Hm Ht) as Hin.
    apply list_elem_of_fmap in Hin as (item & -> & Hi).
    exists (item.2 ∪ {[ "title" := item.1 ]}). split.
    + unfold documents_of. apply list_elem_of_fmap. by exists item.
    + destruct (Hitems' item Hi)
        as (m & _ & t' & s & sub & uid & _ & _ & _ & _ & ->).
      simpl. rewrite Ht. apply entry_lookups.
Qed.

End ListingMethodFacts.

(** The reference store meets the contract of the collection reader. *)

Lemma ref_collection_get_sound s filter ms :
  ref_collection_get s filter = Ok ms →
  ∀ m, m ∈ ms →
    filter ⊆ m ∧ ∃ id d, RefStore.entries s !! id = Some d ∧ metadata d = m.
Proof.
  unfold ref_collection_get. destruct (RefStore.online s); [|done].
  intros [= <-] m Hm. apply list_elem_of_fmap in Hm as (d & -> & Hd).
  apply list_elem_of_In, filter_In in Hd as [Hin Hadm].
  apply list_elem_of_In, list_elem_of_fmap in Hin as ([id d'] & -> & Hin).
  apply elem_of_map_to_list in Hin. split; [|by exists id, d'].
  unfold RefStore.allows in Hadm. apply bool_decide_eq_true in Hadm.
  by apply map_subseteq_spec.
Qed.

Lemma ref_collection_get_complete s filter ms :
  ref_collection_get s filter = Ok ms →
  ∀ id d, RefStore.entries s !! id = Some d → filter ⊆ metadata d →
    metadata d ∈ ms.
Proof.
  unfold ref_collection_get. destruct (RefStore.online s); [|done].
  intros [= <-] id d Hid Hsub. apply list_elem_of_fmap. exists d.
  split; [done|]. apply list_elem_of_In, filter_In. split.
  - apply list_elem_of_In, list_elem_of_fmap. exists (id, d).
    split; [done|]. by apply elem_of_map_to_list.
  - unfold RefStore.allows. apply bool_decide_eq_true.
    intros k v Hk. by eapply map_subseteq_spec.
Qed.

#[global] Instance ref_collection_reader :
  CollectionReader RefStore.ref_store := {|
  collection_get := ref_collection_get;
  collection_get_sound := ref_collection_get_sound;
  collection_get_complete := ref_collection_get_complete
|}.

Lemma get_user_documents_listing_witness :
  ∃ l, get_user_documents 1 Demo.two_owners = (Ok l, Demo.two_owners)
    ∧ NoDup ((λ e : gmap string value, e !! "title") <$> l).
Proof.
  destruct (get_user_documents_listing 1 Demo.two_owners
              [Demo.upload_metadata 1 1 "General" "notes.txt"])
    as (l & Hl & Hnd & _).
  - vm_compute. reflexivity.
  - constructor; [|constructor].
    repeat split; eexists; vm_compute; reflexivity.
  - exists l. split; [exact Hl|exact Hnd].
Defined.

(** The listing of user 1: one entry, with the four keys. *)
Example get_user_documents_two_owners :
  get_user_documents 1 Demo.two_owners
  = (Ok [Demo.upload_metadata 1 1 "General" "notes.txt"], Demo.two_owners).
Proof. vm_compute. reflexivity. Qed.

(** * Properties of the chat endpoint *)

Section EndpointFacts.

Context `{VectorStore store}.
Variable llm : str → outcome str.

Lemma query_returns question user_id semester subject (vs : store) :
  ∃ r, query llm question user_id semester subject vs = (Ok r, vs).
Proof.
  unfold query, query_body, qa_chain. unfold_monad.
  destruct (similarity_search vs question _ 4) as [docs|e]; [|by eexists].
  destruct (llm _) as [result|e]; [|by eexists].
  simpl. destruct (titles docs); by eexists.
Qed.

Lemma validate_sources_Some sources l :
  Main.validate_sources sources = Some l → sources = VStr <$> l.
Proof.
  revert l. induction sources as [|[z|s] sources IH]; intros l Hv;
    simpl in Hv.
  - by injection Hv as <-.
  - done.
  - destruct (Main.validate_sources sources) as [l'|]; [|done].
    injection Hv as <-. simpl. f_equal. by apply IH.
Qed.

(** The chat endpoint answers for the authenticated user: the user id in
    the body of the request changes nothing, no exception of the query
    reaches the endpoint, the store is left as it was, and every source of
    a response is the title of a stored chunk whose user id is the
    authenticated one. *)
Theorem chat_for_authenticated_user chat_request current_user_id
    (vs : store) :
  (∀ other,
     Main.chat_with_documents llm
       {| Main.chat_question := Main.chat_question chat_request;
          Main.chat_user_id := other;
          Main.chat_semester := Main.chat_semester chat_request;
          Main.chat_subject := Main.chat_subject chat_request |}
       current_user_id vs
     = Main.chat_with_documents llm chat_request current_user_id vs)
  ∧ (∃ result,
       Main.chat_with_documents llm chat_request current_user_id vs
       = (result, vs)
       ∧ (∀ e, result ≠ Main.Raised e)
       ∧ ∀ response, result = Main.Returned response →
           ∀ s, s ∈ Main.response_sources response →
             ∃ id d, collection vs !! id = Some d
               ∧ metadata d !! "user_id" = Some (VInt current_user_id)
               ∧ metadata d !! "title" = Some (VStr s)).
Proof.
  split; [done|]. unfold Main.chat_with_documents.
  destruct (query_returns (Main.chat_question chat_request) current_user_id
              (Main.chat_semester chat_request)
              (Main.chat_subject chat_request) vs) as [r Hq].
  rewrite Hq.
  destruct (Main.validate_sources (sources r)) as [l|] eqn:Hv.
  - eexists. split; [done|]. split; [done|].
    intros response [= <-] s Hs. simpl in Hs.
    apply validate_sources_Some in Hv.
    assert (VStr s ∈ sources r) as Ht.
    { rewrite Hv. apply list_elem_of_fmap. by exists s. }
    destruct (query_sources_retrieved llm _ _ _ _ _ _ _ _ Hq Ht)
      as (docs & d & Hsearch & Hd & Htitle).
    destruct (similarity_search_filtered _ _ _ _ _ Hsearch d Hd)
      as [[id Hid] Hsub].
    exists id, d. split; [done|]. split; [|done].
    eapply map_subseteq_spec; [exact Hsub|]. apply query_filter_user_id.
  - eexists. split; [done|]. split; [done|]. by intros response [=].
Qed.

End EndpointFacts.

(** User 2 writes the id of user 1 in the request: the answer comes from
    the documents of user 2. *)
Example chat_other_user_id :
  Main.chat_with_documents Demo.llm
    {| Main.chat_question := pystr "What are proofs?";
       Main.chat_user_id := 1;
       Main.chat_semester := None;
       Main.chat_subject := None |} 2 Demo.two_owners
  = (Main.Returned {| Main.response_answer := pystr "I don't know.";
                 Main.response_sources := [pystr "notes.txt"] |},
     Demo.two_owners).
Proof. vm_compute. reflexivity. Qed.

(** * Properties of the registration endpoint *)

Section RegistrationFacts.

Variable db : Type.
Variable first_by_username : db → str → outcome (option Users.UserRow).
Variable get_password_hash : str → outcome str.
Variable add_commit_refresh : str → str → str → M db Users.UserRow.
Variable str_of_exception : Users.raised → str.

(** Every failure of [create_user] is answered with status 500: the
    status 400 raised for a name that is taken is caught by the handler of
    the same function, and reaches the client as the detail of a 500, with
    the table left as it was.  A row is returned only for a name that was
    free. *)
Theorem create_user_failure user (s : db) :
  (∀ e s',
     Users.create_user db first_by_username get_password_hash
       add_commit_refresh str_of_exception user s = (inr e, s') →
     ∃ detail, e = Users.HTTPException 500 detail)
  ∧ (∀ db_user,
       first_by_username s (Users.username user) = Ok (Some db_user) →
       Users.create_user db first_by_username get_password_hash
         add_commit_refresh str_of_exception user s
       = (inr (Users.HTTPException 500
                 (str_of_exception
                    (Users.HTTPException 400
                       (pystr "Username already registered")))), s))
  ∧ (∀ row s',
       Users.create_user db first_by_username get_password_hash
         add_commit_refresh str_of_exception user s = (inl row, s') →
       first_by_username s (Users.username user) = Ok None
       ∧ ∃ hashed,
           get_password_hash (Users.password user) = Ok hashed
           ∧ add_commit_refresh (Users.username user) (Users.email user)
               hashed s = (Ok row, s')).
Proof.
  unfold Users.create_user, Users.create_user_body. split; [|split].
  - intros e s' Hc.
    destruct (first_by_username s _) as [[row|]|e0].
    + injection Hc as <- _. by eexists.
    + destruct (get_password_hash _) as [hashed|e1].
      * destruct (add_commit_refresh _ _ _ s) as [[row|e2] s2]; [done|].
        injection Hc as <- _. by eexists.
      * injection Hc as <- _. by eexists.
    + injection Hc as <- _. by eexists.
  - by intros db_user ->.
  - intros row s'.
    destruct (first_by_username s _) as [[row0|]|e0]; [done| |done].
    destruct (get_password_hash _) as [hashed|e1]; [|done].
    destruct (add_commit_refresh _ _ _ s) as [[row1|e2] s2] eqn:Hadd;
      [|done].
    intros [= <- <-]. split; [done|]. by exists hashed.
Qed.

End RegistrationFacts.

(** Registering the name of the one user of the table: a 500 whose detail
    is the text of the 400. *)
Example create_user_taken :
  Users.create_user (list Users.UserRow) Users.demo_first Users.demo_hash
    Users.demo_add Users.demo_str
    {| Users.username := pystr "ada"; Users.email := pystr "ada@x.org";
       Users.password := pystr "secret" |}
    [ {| Users.row_id := 1; Users.row_username := pystr "ada";
         Users.row_email := pystr "ada@y.org";
         Users.row_hashed_password := pystr "hash:first" |} ]
  = (inr (Users.HTTPException 500
            (pystr "400: Username already registered")),
     [ {| Users.row_id := 1; Users.row_username := pystr "ada";
          Users.row_email := pystr "ada@y.org";
          Users.row_hashed_password := pystr "hash:first" |} ]).
Proof. vm_compute. reflexivity. Qed.
